(** * Cosmo: a cosmology calculator (libcosmo 2.1.5) and its Romberg integrator

    Shallow embedding of [cosmo.h] and of the definitions file of class
    [Cosmo], followed by the properties of the numerical core.

    - A C++ [double] is a binary64 primitive float; every arithmetic
      operation of the source is the IEEE operation of the same name.
    - A C++ [int] is a [Z] kept in the 32-bit two's complement range by
      [Int.wrap]; the conversion of an [int] to [double] is
      [Double.of_int].
    - An object of class [Cosmo] is a record; a member function takes the
      object it is called on ([this]) and returns the object after the call.
    - The libm functions the class calls at run-time arguments ([sin],
      [sinh], [asin], [asinh]) are an interface, [Libm]. *)

From Stdlib Require Import ZArith Floats Lia Bool Ascii String.
From stdpp Require Import base option list strings gmap.

Set Warnings "-inexact-float".
Local Open Scope Z_scope.

(** ** Machine integers *)

Module Int.

Definition width : Z := 32.
Definition modulus : Z := 2 ^ width.
Definition half_modulus : Z := 2 ^ (width - 1).

(** The value of an [int] expression: reduced to the signed 32-bit range. *)
Definition wrap (x : Z) : Z :=
  (x + half_modulus) mod modulus - half_modulus.

Definition in_range (x : Z) : Prop := - half_modulus <= x < half_modulus.

(** [std::string::npos] and the conversion of a [size_t] to [int]. *)
Definition npos : Z := 2 ^ 64 - 1.
Definition of_size_t (x : Z) : Z := wrap x.

End Int.

(** ** Doubles *)

Module Double.

Definition t := float.

(** [(double) k] for an [int] k: exact, an [int] has at most 31 bits. *)
Definition of_int (k : Z) : float :=
  if k <? 0
  then PrimFloat.opp (PrimFloat.of_uint63 (Uint63.of_Z (- k)))
  else PrimFloat.of_uint63 (Uint63.of_Z k).

(** [std::numeric_limits<double>::epsilon()] *)
Definition epsilon : float := 0x1p-52%float.

Definition fabs (x : float) : float := PrimFloat.abs x.
Definition sqrt (x : float) : float := PrimFloat.sqrt x.

(** A [double] used as a condition: [if (x)] is [x != 0]. *)
Definition truthy (x : float) : bool := negb (PrimFloat.eqb x 0%float).

(** [atan(double(1))]: the double nearest to pi/4, which is what a
    correctly rounding libm returns at this argument. *)
Definition atan_1 : float := 0x1.921fb54442d18p-1%float.

End Double.

(** The libm functions called at arguments known only at run time. *)
Class Libm : Type := {
  sin : float -> float;
  sinh : float -> float;
  asin : float -> float;
  asinh : float -> float
}.

(** ** Global constants of the definitions file *)

Definition c : float := 2.99792458e5%float.
Definition G : float := 6.67259e-8%float.
Definition PI : float := (Double.atan_1 * 4)%float.
Definition kmPerMpc : float := 3.08567758e19%float.
Definition tropicalYear : float := 3.1556926e7%float.

(** ** Class Cosmo: member data *)

Record Cosmo : Type := mkCosmo {
  H0_ : float;
  q0_ : float;
  OmegaM_ : float;
  OmegaL_ : float;
  Omegak_ : float;
  dH_ : float;
  z_ : float;
  dA_ : float;
  dL_ : float;
  dC_ : float;
  dM_ : float;
  VC_ : float;
  tL_ : float;
  age_ : float;
  scale_ : float;
  rhoCrit_ : float
}.

(** Assignments to one member. *)
Definition set_H0 (v : float) (o : Cosmo) : Cosmo :=
  mkCosmo v (q0_ o) (OmegaM_ o) (OmegaL_ o) (Omegak_ o) (dH_ o) (z_ o) (dA_ o)
          (dL_ o) (dC_ o) (dM_ o) (VC_ o) (tL_ o) (age_ o) (scale_ o) (rhoCrit_ o).
Definition set_q0 (v : float) (o : Cosmo) : Cosmo :=
  mkCosmo (H0_ o) v (OmegaM_ o) (OmegaL_ o) (Omegak_ o) (dH_ o) (z_ o) (dA_ o)
          (dL_ o) (dC_ o) (dM_ o) (VC_ o) (tL_ o) (age_ o) (scale_ o) (rhoCrit_ o).
Definition set_OmegaM (v : float) (o : Cosmo) : Cosmo :=
  mkCosmo (H0_ o) (q0_ o) v (OmegaL_ o) (Omegak_ o) (dH_ o) (z_ o) (dA_ o)
          (dL_ o) (dC_ o) (dM_ o) (VC_ o) (tL_ o) (age_ o) (scale_ o) (rhoCrit_ o).
Definition set_OmegaL (v : float) (o : Cosmo) : Cosmo :=
  mkCosmo (H0_ o) (q0_ o) (OmegaM_ o) v (Omegak_ o) (dH_ o) (z_ o) (dA_ o)
          (dL_ o) (dC_ o) (dM_ o) (VC_ o) (tL_ o) (age_ o) (scale_ o) (rhoCrit_ o).
Definition set_Omegak (v : float) (o : Cosmo) : Cosmo :=
  mkCosmo (H0_ o) (q0_ o) (OmegaM_ o) (OmegaL_ o) v (dH_ o) (z_ o) (dA_ o)
          (dL_ o) (dC_ o) (dM_ o) (VC_ o) (tL_ o) (age_ o) (scale_ o) (rhoCrit_ o).
Definition set_dH (v : float) (o : Cosmo) : Cosmo :=
  mkCosmo (H0_ o) (q0_ o) (OmegaM_ o) (OmegaL_ o) (Omegak_ o) v (z_ o) (dA_ o)
          (dL_ o) (dC_ o) (dM_ o) (VC_ o) (tL_ o) (age_ o) (scale_ o) (rhoCrit_ o).
Definition set_z (v : float) (o : Cosmo) : Cosmo :=
  mkCosmo (H0_ o) (q0_ o) (OmegaM_ o) (OmegaL_ o) (Omegak_ o) (dH_ o) v (dA_ o)
          (dL_ o) (dC_ o) (dM_ o) (VC_ o) (tL_ o) (age_ o) (scale_ o) (rhoCrit_ o).
Definition set_dA (v : float) (o : Cosmo) : Cosmo :=
  mkCosmo (H0_ o) (q0_ o) (OmegaM_ o) (OmegaL_ o) (Omegak_ o) (dH_ o) (z_ o) v
          (dL_ o) (dC_ o) (dM_ o) (VC_ o) (tL_ o) (age_ o) (scale_ o) (rhoCrit_ o).
Definition set_dL (v : float) (o : Cosmo) : Cosmo :=
  mkCosmo (H0_ o) (q0_ o) (OmegaM_ o) (OmegaL_ o) (Omegak_ o) (dH_ o) (z_ o) (dA_ o)
          v (dC_ o) (dM_ o) (VC_ o) (tL_ o) (age_ o) (scale_ o) (rhoCrit_ o).
Definition set_dC (v : float) (o : Cosmo) : Cosmo :=
  mkCosmo (H0_ o) (q0_ o) (OmegaM_ o) (OmegaL_ o) (Omegak_ o) (dH_ o) (z_ o) (dA_ o)
          (dL_ o) v (dM_ o) (VC_ o) (tL_ o) (age_ o) (scale_ o) (rhoCrit_ o).
Definition set_dM (v : float) (o : Cosmo) : Cosmo :=
  mkCosmo (H0_ o) (q0_ o) (OmegaM_ o) (OmegaL_ o) (Omegak_ o) (dH_ o) (z_ o) (dA_ o)
          (dL_ o) (dC_ o) v (VC_ o) (tL_ o) (age_ o) (scale_ o) (rhoCrit_ o).
Definition set_VC (v : float) (o : Cosmo) : Cosmo :=
  mkCosmo (H0_ o) (q0_ o) (OmegaM_ o) (OmegaL_ o) (Omegak_ o) (dH_ o) (z_ o) (dA_ o)
          (dL_ o) (dC_ o) (dM_ o) v (tL_ o) (age_ o) (scale_ o) (rhoCrit_ o).
Definition set_tL (v : float) (o : Cosmo) : Cosmo :=
  mkCosmo (H0_ o) (q0_ o) (OmegaM_ o) (OmegaL_ o) (Omegak_ o) (dH_ o) (z_ o) (dA_ o)
          (dL_ o) (dC_ o) (dM_ o) (VC_ o) v (age_ o) (scale_ o) (rhoCrit_ o).
Definition set_age (v : float) (o : Cosmo) : Cosmo :=
  mkCosmo (H0_ o) (q0_ o) (OmegaM_ o) (OmegaL_ o) (Omegak_ o) (dH_ o) (z_ o) (dA_ o)
          (dL_ o) (dC_ o) (dM_ o) (VC_ o) (tL_ o) v (scale_ o) (rhoCrit_ o).
Definition set_scale (v : float) (o : Cosmo) : Cosmo :=
  mkCosmo (H0_ o) (q0_ o) (OmegaM_ o) (OmegaL_ o) (Omegak_ o) (dH_ o) (z_ o) (dA_ o)
          (dL_ o) (dC_ o) (dM_ o) (VC_ o) (tL_ o) (age_ o) v (rhoCrit_ o).
Definition set_rhoCrit (v : float) (o : Cosmo) : Cosmo :=
  mkCosmo (H0_ o) (q0_ o) (OmegaM_ o) (OmegaL_ o) (Omegak_ o) (dH_ o) (z_ o) (dA_ o)
          (dL_ o) (dC_ o) (dM_ o) (VC_ o) (tL_ o) (age_ o) (scale_ o) v.

(** ** Inline private members of cosmo.h *)

Definition SQR (a : float) : float := (a * a)%float.
Definition CUBE (a : float) : float := (a * a * a)%float.

(** Expansion factor at a given redshift. *)
Definition E (this : Cosmo) (z : float) : float :=
  Double.sqrt (OmegaM_ this * CUBE (1 + z) + Omegak_ this * SQR (1 + z)
               + OmegaL_ this)%float.

Definition inverseOfE (this : Cosmo) (z : float) : float := (1.0 / E this z)%float.

Definition lookbackIntegrand (this : Cosmo) (z : float) : float :=
  (1.0 / (1 + z) / E this z)%float.

(** Integrand for the age of the universe, after the change of variables
    z = x / (1-x). *)
Definition ageIntegrand (this : Cosmo) (x : float) : float :=
  let z := (x / (1 - x))%float in
  (1.0 / (1 + z) / E this z / SQR (1 - x))%float.

(** ** Romberg integration *)

Module Romberg.

(** [const int N = 25]: maximum iterations. *)
Definition N : Z := 25.
(** [double prec = 1e-8]: desired precision. *)
Definition prec : float := 1e-8%float.

(** [vector<double> R(N*N)]: the table, row [i] stored from index [N*i].
    Every element starts as [0.0]. *)
Abbreviation table := (list float).
Definition R_init : table := replicate (Z.to_nat (N * N)) 0%float.

(** [R[i]] and [R[i] = v].  The source indexes the vector only inside its
    bounds; an index outside them reads [0.0] here and writes nothing. *)
Definition get (R : table) (i : Z) : float := default 0%float (R !! Z.to_nat i).
Definition set (R : table) (i : Z) (v : float) : table := <[Z.to_nat i := v]> R.
(** [R.back()] *)
Definition back (R : table) : float := default 0%float (last R).

(** One turn of [for (k = 1; k <= np-1; k += 2) sumT += func(a + k*h)],
    on the pair of [k] and [sumT]; a turn taken after the test has failed
    leaves the pair as it is. *)
Definition sum_turn (func : float -> float) (a h : float) (np : Z)
    (st : Z * float) : Z * float :=
  let '(k, sumT) := st in
  if k <=? Int.wrap (np - 1)
  then (Int.wrap (k + 2), (sumT + func (a + Double.of_int k * h))%float)
  else st.

(** The whole loop: at most [np] turns are ever taken. *)
Definition sum_loop (func : float -> float) (a h : float) (np : Z) : Z * float :=
  N.iter (Z.to_N np) (sum_turn func a h np) (1, 0%float).

(** [for (j = 1; j < i; ++j) { m *= 4; R[N*i+j] = ... }] on [j], [m], [R]. *)
Fixpoint extrapolate (fuel : nat) (i j m : Z) (R : table) : Z * Z * table :=
  match fuel with
  | O => (j, m, R)
  | S fuel' =>
      if j <? i then
        let m := Int.wrap (m * 4) in
        let v := (get R (N * i + j - 1)
                  + (get R (N * i + j - 1) - get R (N * (i - 1) + j - 1))
                    / Double.of_int (Int.wrap (m - 1)))%float in
        extrapolate fuel' i (Int.wrap (j + 1)) m (set R (N * i + j) v)
      else (j, m, R)
  end.

(** What the body of the loop over the rows does: leave [romberg] with a
    value, or go on with the next row. *)
Inductive flow : Type :=
  | Return (v : float)
  | Next (R : table) (h : float) (np : Z).

(** The body of [for (i = 1; i < N; ++i)]. *)
Definition row (func : float -> float) (a : float) (i : Z)
    (R : table) (h : float) (np : Z) : flow :=
  let h := (h / 2.0)%float in
  let np := Int.wrap (np * 2) in
  let sumT := snd (sum_loop func a h np) in
  let R := set R (N * i) (0.5 * get R (N * (i - 1)) + h * sumT)%float in
  let '(j, _, R) := extrapolate (Z.to_nat i) i 1 1 R in
  let dR := if 1 <? j
            then (get R (N * i + j - 1) - get R (N * (i - 1) + (j - 2)))%float
            else get R 0 in
  if (Double.fabs dR <? prec)%float
  then Return (get R (N * i + j - 1))
  else Next R h np.

(** The loop over the rows, from row [i] on. *)
Fixpoint rows (fuel : nat) (func : float -> float) (a : float) (i : Z)
    (R : table) (h : float) (np : Z) : float :=
  match fuel with
  | O => back R
  | S fuel' =>
      if i <? N then
        match row func a i R h np with
        | Return v => v
        | Next R' h' np' => rows fuel' func a (Int.wrap (i + 1)) R' h' np'
        end
      else back R
  end.

(** [double Cosmo::romberg(PFD func, double a, double b)]; [func] is the
    member function already applied to the object. *)
Definition romberg (func : float -> float) (a b : float) : float :=
  let h := (b - a)%float in
  let R := set R_init 0 (h / 2 * (func a + func b))%float in
  rows (Z.to_nat N) func a 1 R h 1.

(** The rows from [i] on, followed to the end of the loop: the value a row
    returns with, or the table and the counters the loop ends with. *)
Fixpoint run (fuel : nat) (func : float -> float) (a : float) (i : Z)
    (R : table) (h : float) (np : Z) : flow :=
  match fuel with
  | O => Next R h np
  | S fuel' =>
      if i <? N then
        match row func a i R h np with
        | Return v => Return v
        | Next R' h' np' => run fuel' func a (Int.wrap (i + 1)) R' h' np'
        end
      else Next R h np
  end.

Definition run_romberg (func : float -> float) (a b : float) : flow :=
  let h := (b - a)%float in
  let R := set R_init 0 (h / 2 * (func a + func b))%float in
  run (Z.to_nat N) func a 1 R h 1.

(** A table of the size [romberg] allocates. *)
Definition full (R : table) : Prop := length R = Z.to_nat (N * N).

(** Whether [romberg] leaves its loop without any row having passed the
    convergence test. *)
Definition hits_cap (func : float -> float) (a b : float) : bool :=
  match run_romberg func a b with
  | Return _ => false
  | Next _ _ _ => true
  end.

(** The most refined estimate in a table whose rows are all filled in: the
    last entry of row [N-1], which has the entries [0 .. N-2]. *)
Definition most_refined (R : table) : float := get R (N * (N - 1) + (N - 2)).

End Romberg.

(** ** Class Cosmo: member functions *)

(** Addresses of objects, and the objects in memory. *)
Abbreviation addr := nat.
Abbreviation store := (gmap nat Cosmo).

Section Members.

Context {libm : Libm}.

(** [void Cosmo::init(hNought, omegaMatter, omegaLambda)]: the
    initialization function, called by the constructors and by
    [setCosmology] and [getCosmologyFromUser]. *)
Definition init (this : Cosmo) (hNought omegaMatter omegaLambda : float) : Cosmo :=
  let this := set_H0 hNought this in
  let this := set_OmegaM omegaMatter this in
  let this := set_OmegaL omegaLambda this in
  let this := set_Omegak (1.0 - omegaMatter - omegaLambda)%float this in
  let this :=
    if (Double.fabs (Omegak_ this) <=? Double.epsilon)%float
    then set_Omegak 0%float this else this in
  let this := set_q0 (0.5 * OmegaM_ this - OmegaL_ this)%float this in
  let this := set_dH (c / H0_ this)%float this in
  let this :=
    set_age (Romberg.romberg (ageIntegrand this) 0.0 (1.0 - Double.epsilon)
             / H0_ this * kmPerMpc)%float this in
  let this := set_dC 0%float this in
  let this := set_dM 0%float this in
  let this := set_dA 0%float this in
  let this := set_dL 0%float this in
  let this := set_VC 0%float this in
  let this := set_tL 0%float this in
  let this := set_z 0%float this in
  let this := set_scale 0%float this in
  set_rhoCrit 0%float this.

(** [void Cosmo::setDistances()]: sets [scale_] and the distance measures. *)
Definition setDistances (this : Cosmo) : Cosmo :=
  let this :=
    set_rhoCrit (3.0 / 8.0 / PI * SQR (H0_ this / kmPerMpc) / G
                 * (OmegaL_ this + CUBE (1 + z_ this) * OmegaM_ this))%float this in
  if negb (Double.truthy (z_ this)) then
    let this := set_tL 0%float this in
    let this := set_dL 0%float this in
    let this := set_dA 0%float this in
    let this := set_VC 0%float this in
    let this := set_dM 0%float this in
    let this := set_dC 0%float this in
    set_scale 0%float this
  else
    let this :=
      set_dC (dH_ this * Romberg.romberg (inverseOfE this) 0 (z_ this))%float this in
    let this :=
      if (0 <? Omegak_ this)%float then
        let this :=
          set_dM (dH_ this / Double.sqrt (Omegak_ this)
                  * sinh (Double.sqrt (Omegak_ this) * dC_ this / dH_ this))%float
                 this in
        set_VC (2 * PI * CUBE (dH_ this) / Omegak_ this
                * (dM_ this / dH_ this
                   * Double.sqrt (1 + Omegak_ this * SQR (dM_ this / dH_ this))
                   - asinh (Double.sqrt (Double.fabs (Omegak_ this))
                            * dM_ this / dH_ this)
                     / Double.sqrt (Double.fabs (Omegak_ this)))
                / 1e9)%float this
      else if (Omegak_ this <? 0)%float then
        let this :=
          set_dM (dH_ this / Double.sqrt (Double.fabs (Omegak_ this))
                  * sin (Double.sqrt (Double.fabs (Omegak_ this))
                         * dC_ this / dH_ this))%float this in
        set_VC (2 * PI * CUBE (dH_ this) / Omegak_ this
                * (dM_ this / dH_ this
                   * Double.sqrt (1 + Omegak_ this * SQR (dM_ this / dH_ this))
                   - asin (Double.sqrt (Double.fabs (Omegak_ this))
                           * dM_ this / dH_ this)
                     / Double.sqrt (Double.fabs (Omegak_ this)))
                / 1e9)%float this
      else
        let this := set_dM (dC_ this) this in
        set_VC (4 * PI * CUBE (dM_ this) / 3 / 1e9)%float this in
    let this := set_dA (dM_ this / (1 + z_ this))%float this in
    let this := set_dL (dM_ this * (1 + z_ this))%float this in
    let this :=
      set_tL (Romberg.romberg (lookbackIntegrand this) 0 (z_ this)
              / H0_ this * kmPerMpc)%float this in
    set_scale (dA_ this / 648 * PI)%float this.

(** [void Cosmo::setRedshift(redshift)] *)
Definition setRedshift (this : Cosmo) (redshift : float) : Cosmo :=
  let this := set_z redshift this in
  setDistances this.

(** [void Cosmo::setCosmology(hNought, omegaMatter, omegaLambda)] *)
Definition setCosmology (this : Cosmo) (hNought omegaMatter omegaLambda : float)
    : Cosmo :=
  let this := init this hNought omegaMatter omegaLambda in
  if Double.truthy (z_ this) then setDistances this else this.

(** [inline void clone(const Cosmo& a)], for an object [a] other than
    [this]. *)
Definition clone (this a : Cosmo) : Cosmo :=
  let this := init this (H0_ a) (OmegaM_ a) (OmegaL_ a) in
  setRedshift this (z_ a).

(** The constructors.  [this] is the storage the object is built in, with
    whatever it held before. *)
Definition Cosmo_default (this : Cosmo) : Cosmo :=
  init this 67.04%float 0.3183%float 0.6817%float.

Definition Cosmo_params (this : Cosmo) (hNought omegaMatter omegaLambda : float)
    : Cosmo :=
  init this hNought omegaMatter omegaLambda.

Definition Cosmo_copy (this a : Cosmo) : Cosmo := clone this a.

(** [void Cosmo::getCosmologyFromUser()], given the three values its prompt
    loops end with (the first [> 0], the second [>= 0]). *)
Definition getCosmologyFromUser (this : Cosmo) (H0_tmp OmegaM_tmp OmegaL_tmp : float)
    : Cosmo :=
  init this H0_tmp OmegaM_tmp OmegaL_tmp.

(** *** Objects in memory

    [Cosmo& Cosmo::operator=(const Cosmo& a)] compares addresses, so objects
    live in a store, keyed by address. *)
Definition operator_assign (mem : store) (this a : addr) : store :=
  if decide (this = a) then mem
  else match mem !! this, mem !! a with
       | Some o, Some src => <[this := clone o src]> mem
       | _, _ => mem
       end.

(** [Cosmo b(a)] at a fresh address [b]. *)
Definition copy_construct (mem : store) (raw : Cosmo) (b a : addr) : store :=
  match mem !! a with
  | Some src => <[b := Cosmo_copy raw src]> mem
  | None => mem
  end.

(** *** States of an object that the public interface can produce *)
Inductive reachable : Cosmo -> Prop :=
  | reach_default raw : reachable (Cosmo_default raw)
  | reach_params raw h m l : reachable (Cosmo_params raw h m l)
  | reach_copy raw a : reachable a -> reachable (Cosmo_copy raw a)
  | reach_assign this a : reachable this -> reachable a -> reachable (clone this a)
  | reach_setCosmology this h m l :
      reachable this -> reachable (setCosmology this h m l)
  | reach_setRedshift this z : reachable this -> reachable (setRedshift this z)
  | reach_getCosmologyFromUser this h m l :
      reachable this -> reachable (getCosmologyFromUser this h m l).

End Members.

(** ** Non-member functions: [isNumeric] *)

Module Str.

(** [text.find_first_not_of(chars)], searching [l] whose first character has
    index [i]: the index of the first character that is not one of [chars],
    [npos] when there is none. *)
Fixpoint find_first_not_of_from (l chars : list ascii) (i : Z) : Z :=
  match l with
  | [] => Int.npos
  | ch :: l' =>
      if existsb (Ascii.eqb ch) chars
      then find_first_not_of_from l' chars (i + 1)
      else i
  end.

Definition find_first_not_of (text chars : string) : Z :=
  find_first_not_of_from (list_ascii_of_string text) (list_ascii_of_string chars) 0.

(** [text.find(ch, pos)] for a needle of one character: the index of its
    first occurrence at or after [pos], [npos] when there is none. *)
Fixpoint find_from (l : list ascii) (ch : ascii) (pos i : Z) : Z :=
  match l with
  | [] => Int.npos
  | x :: l' =>
      if (pos <=? i) && Ascii.eqb x ch then i else find_from l' ch pos (i + 1)
  end.

Definition find (text : string) (ch : ascii) (pos : Z) : Z :=
  find_from (list_ascii_of_string text) ch pos 0.

End Str.

(** [int isNumeric(const string& text)]: determines if the given string is
    a valid number. *)
Definition isNumeric (text : string) : Z :=
  let n := Int.of_size_t (Z.of_nat (String.length text)) in
  (* find non-numeric characters *)
  let i := Int.of_size_t (Str.find_first_not_of text "-0123456789.") in
  if (0 <=? i) && (i <? n) then 0 else
  (* look for a negative sign after the first character *)
  let i := Int.of_size_t (Str.find text "-" 1) in
  if (0 <? i) && (i <? n) then 0 else
  (* now look for multiple decimals *)
  let i := Int.of_size_t (Str.find text "." 0) in
  if (0 <=? i) && (i <? n) then
    let i := Int.of_size_t (Str.find text "." (Int.wrap (i + 1))) in
    if (0 <=? i) && (i <? n) then 0 else 1
  else 1.

(** What a token has to look like for [isNumeric] to accept it, read off
    the three tests. *)
Definition allowed_char (ch : ascii) : bool :=
  existsb (Ascii.eqb ch) (list_ascii_of_string "-0123456789.").

Definition count_char (ch : ascii) (l : list ascii) : nat :=
  List.length (List.filter (fun x => Ascii.eqb x ch) l).

Definition accepted_shape (text : string) : bool :=
  let l := list_ascii_of_string text in
  forallb allowed_char l
  && negb (existsb (fun x => Ascii.eqb x "-") (List.tl l))
  && (count_char "." l <=? 1)%nat.

Definition is_digit (ch : ascii) : bool :=
  existsb (Ascii.eqb ch) (list_ascii_of_string "0123456789").

Definition has_digit (text : string) : bool :=
  existsb is_digit (list_ascii_of_string text).

(** ** Objects used in examples *)

(** Storage before a constructor has run; its content is never read. *)
Definition raw0 : Cosmo := mkCosmo 0 0 0 0 0 0 0 0 0 0 0 0 0 0 0 0.

(** A libm stand-in for examples in flat or unset-redshift states, where none
    of the four functions is called. *)
Definition libm_uncalled : Libm :=
  {| sin := fun _ => nan; sinh := fun _ => nan;
     asin := fun _ => nan; asinh := fun _ => nan |}.

(** The members [E] reads, as [init] leaves them: for integrands in examples. *)
Definition with_params (omegaMatter omegaLambda omegak : float) : Cosmo :=
  set_Omegak omegak (set_OmegaL omegaLambda (set_OmegaM omegaMatter raw0)).

(** A cosmology with a bounce: [OmegaM = 0.3], [OmegaL = 2.0], so that
    [Omegak = 1 - 0.3 - 2.0]; [E] is NaN at [z = 1]. *)
Definition bounce : Cosmo := with_params 0.3 2.0 (1.0 - 0.3 - 2.0).

(** A state with a redshift set, then given new parameters and a new
    redshift. *)
Definition sample_state : Cosmo :=
  setRedshift (libm := libm_uncalled)
    (setCosmology (libm := libm_uncalled)
       (setRedshift (libm := libm_uncalled) (Cosmo_default raw0) 1) 70 0.3 0.7)
    2.

(** Two objects in memory: the sample state at address [0], a default
    object at address [1]. *)
Definition sample_store : store :=
  <[1%nat := Cosmo_default raw0]> (<[0%nat := sample_state]> (∅ : store)).


(** ** Quantities the properties are stated with *)

(** The curvature density [init] stores for [omegaMatter], [omegaLambda]. *)
Definition curvature (omegaMatter omegaLambda : float) : float :=
  let k := (1.0 - omegaMatter - omegaLambda)%float in
  if (Double.fabs k <=? Double.epsilon)%float then 0%float else k.

(** The critical density [setDistances] stores. *)
Definition critical_density (H0 omegaMatter omegaLambda z : float) : float :=
  (3.0 / 8.0 / PI * SQR (H0 / kmPerMpc) / G
   * (omegaLambda + CUBE (1 + z) * omegaMatter))%float.

(** * Properties *)

(** ** Machine integers and doubles *)

Lemma Int_wrap_in_range (x : Z) : - 2147483648 <= x < 2147483648 -> Int.wrap x = x.
Proof.
  intros H; unfold Int.wrap.
  change Int.half_modulus with 2147483648; change Int.modulus with 4294967296.
  rewrite Z.mod_small; lia.
Qed.

Lemma Prim2SF_nan : Prim2SF nan = S754_nan.
Proof. reflexivity. Qed.

Lemma nan_add_l (x : float) : (nan + x)%float = nan.
Proof. apply Prim2SF_inj; rewrite add_spec, Prim2SF_nan; reflexivity. Qed.

Lemma nan_sub_l (x : float) : (nan - x)%float = nan.
Proof. apply Prim2SF_inj; rewrite sub_spec, Prim2SF_nan; reflexivity. Qed.



(** ** The Romberg table *)

Section RombergFacts.

Import Romberg.

Lemma full_init : full R_init.
Proof. unfold full, R_init; apply length_replicate. Qed.

Lemma full_set (R : table) (i : Z) (v : float) : full R -> full (set R i v).
Proof. unfold full, set; intros H; rewrite length_insert; exact H. Qed.

Lemma back_init : back R_init = 0%float.
Proof. reflexivity. Qed.

(** Writing below the last element leaves [R.back()] alone. *)
Lemma back_set (R : table) (i : Z) (v : float) :
  full R -> i < N * N - 1 -> back (set R i v) = back R.
Proof.
  unfold full, back, set; intros HR Hi.
  rewrite !last_lookup, length_insert, HR.
  rewrite list_lookup_insert_ne; [reflexivity |].
  change (Z.to_nat (N * N)) with 625%nat; change (N * N - 1) with 624 in Hi.
  simpl; lia.
Qed.

Lemma get_set_eq (R : table) (i : Z) (v : float) :
  full R -> 0 <= i < N * N -> get (set R i v) i = v.
Proof.
  unfold full, get, set; intros HR Hi.
  rewrite list_lookup_insert_eq; [reflexivity | rewrite HR; lia].
Qed.

Lemma get_set_ne (R : table) (i k : Z) (v : float) :
  0 <= i -> 0 <= k -> i <> k -> get (set R i v) k = get R k.
Proof.
  unfold get, set; intros Hi Hk Hne.
  rewrite list_lookup_insert_ne; [reflexivity | lia].
Qed.

(** The extrapolation of row [i] writes the entries [1 .. i-1] of that row:
    the table keeps its size and its last element. *)
Lemma extrapolate_back (fuel : nat) (i j m : Z) (R : table) :
  i < N -> full R ->
  full (extrapolate fuel i j m R).2 /\ back (extrapolate fuel i j m R).2 = back R.
Proof.
  intros Hi; revert j m R.
  induction fuel as [|fuel IH]; intros j m R HR; simpl; [split; auto |].
  destruct (j <? i) eqn:Hj; [| split; auto].
  apply Z.ltb_lt in Hj.
  match goal with
  | |- context [extrapolate fuel i ?j' ?m' (set R ?k ?v)] =>
      destruct (IH j' m' (set R k v) (full_set R k v HR)) as [H1 H2];
      split; [exact H1 | rewrite H2; apply back_set; [exact HR |]]
  end.
  unfold N in *; lia.
Qed.

Lemma row_back (func : float -> float) (a : float) (i : Z) (R : table)
    (h : float) (np : Z) (R' : table) (h' : float) (np' : Z) :
  i < N -> full R -> row func a i R h np = Next R' h' np' ->
  full R' /\ back R' = back R.
Proof.
  intros Hi HR; unfold row.
  match goal with
  | |- context [extrapolate ?f i 1 1 (set R ?k ?v)] =>
      pose proof (extrapolate_back f i 1 1 (set R k v) Hi (full_set R k v HR)) as [H1 H2];
      assert (Hb : back (set R k v) = back R)
        by (apply back_set; [exact HR | unfold N in *; lia]);
      destruct (extrapolate f i 1 1 (set R k v)) as [[j m] R1]
  end.
  simpl in H1, H2.
  match goal with |- context [if ?b then Return _ else _] => destruct b end;
    [discriminate |].
  intros [= <- _ _]; split; [exact H1 | congruence].
Qed.

(** [rows] in terms of [run]: the value of the row that returns, and
    [R.back()] of the final table otherwise. *)
Lemma rows_run (fuel : nat) (func : float -> float) (a : float) (i : Z)
    (R : table) (h : float) (np : Z) :
  rows fuel func a i R h np =
  match run fuel func a i R h np with
  | Return v => v
  | Next R' _ _ => back R'
  end.
Proof.
  revert i R h np; induction fuel as [|fuel IH]; intros i R h np; simpl;
    [reflexivity |].
  destruct (i <? N); [| reflexivity].
  destruct (row func a i R h np); [reflexivity | apply IH].
Qed.

Lemma run_step (fuel : nat) (func : float -> float) (a : float) (i : Z)
    (R : table) (h : float) (np : Z) :
  run (S fuel) func a i R h np =
  if i <? N then
    match row func a i R h np with
    | Return v => Return v
    | Next R' h' np' => run fuel func a (Int.wrap (i + 1)) R' h' np'
    end
  else Next R h np.
Proof. reflexivity. Qed.

(** The loop never writes the last element of the table. *)
Lemma run_back (fuel : nat) (func : float -> float) (a : float) (i : Z)
    (R : table) (h : float) (np : Z) (R' : table) (h' : float) (np' : Z) :
  full R -> run fuel func a i R h np = Next R' h' np' ->
  full R' /\ back R' = back R.
Proof.
  revert i R h np; induction fuel as [|fuel IH]; intros i R h np HR; simpl.
  - intros [= <- _ _]; auto.
  - destruct (i <? N) eqn:Hi; [| intros [= <- _ _]; auto].
    apply Z.ltb_lt in Hi.
    destruct (row func a i R h np) as [v | R1 h1 np1] eqn:Hrow; [discriminate |].
    destruct (row_back _ _ _ _ _ _ _ _ _ Hi HR Hrow) as [H1 H2].
    intros Hrun; destruct (IH _ _ _ _ H1 Hrun) as [H3 H4].
    split; [exact H3 | congruence].
Qed.

End RombergFacts.

(** *** The loops end by their own tests *)

Section RombergLoops.

Import Romberg.

(** The summation loop ends because its test fails, within the [np] turns
    it is given: after [n] turns [k] is [1 + 2n] or already past [np - 1]. *)
Lemma sum_loop_turns (func : float -> float) (a h : float) (np : Z) (n : BinNums.N) :
  0 <= np < 1073741824 -> (n <= Z.to_N np)%N ->
  let k := fst (N.iter n (sum_turn func a h np) (1, 0%float)) in
  np - 1 < k \/ k = 1 + 2 * Z.of_N n.
Proof.
  intros Hnp; induction n as [|n IH] using N.peano_ind; intros Hn;
    [right; reflexivity |].
  rewrite N.iter_succ; cbv zeta in *.
  specialize (IH ltac:(lia)).
  destruct (N.iter n (sum_turn func a h np) (1, 0%float)) as [k sumT].
  cbn [fst] in IH; unfold sum_turn.
  rewrite (Int_wrap_in_range (np - 1)) by lia.
  destruct (k <=? np - 1) eqn:Hk; cbn [fst].
  - apply Z.leb_le in Hk.
    destruct IH as [IH | IH]; [lia |].
    right; rewrite Int_wrap_in_range; lia.
  - apply Z.leb_gt in Hk; left; lia.
Qed.

Lemma sum_loop_exits (func : float -> float) (a h : float) (np : Z) :
  0 <= np < 1073741824 ->
  (fst (sum_loop func a h np) <=? Int.wrap (np - 1)) = false.
Proof.
  intros Hnp; unfold sum_loop.
  rewrite (Int_wrap_in_range (np - 1)) by lia.
  apply Z.leb_gt.
  destruct (sum_loop_turns func a h np (Z.to_N np) Hnp ltac:(lia)) as [H | H];
    cbv zeta in H; lia.
Qed.

(** The extrapolation loop of row [i] ends with [j = i]. *)
Lemma extrapolate_exits (fuel : nat) (i j m : Z) (R : table) :
  1 <= j <= i -> i < N -> i - j <= Z.of_nat fuel ->
  (extrapolate fuel i j m R).1.1 = i.
Proof.
  revert j m R; induction fuel as [|fuel IH]; intros j m R Hj Hi Hf.
  - simpl; lia.
  - cbn [extrapolate]. destruct (j <? i) eqn:Hlt.
    + apply Z.ltb_lt in Hlt.
      rewrite (Int_wrap_in_range (j + 1)) by (unfold N in *; lia).
      apply IH; lia.
    + apply Z.ltb_ge in Hlt; simpl; lia.
Qed.

End RombergLoops.

(** *** Rows poisoned by a NaN

    Once the first entry of a row is NaN, so is every entry of every later
    row, and no later convergence test succeeds. *)

Section RombergNaN.

Import Romberg.

Lemma extrapolate_nan (fuel : nat) (i j m : Z) (R : table) :
  1 <= j <= i -> i < N -> i - j <= Z.of_nat fuel -> full R ->
  get R (N * i + j - 1) = nan -> get R (N * i) = nan ->
  exists m' R',
    extrapolate fuel i j m R = (i, m', R') /\ full R' /\
    get R' (N * i + i - 1) = nan /\ get R' (N * i) = nan /\ back R' = back R.
Proof.
  revert j m R; induction fuel as [|fuel IH]; intros j m R Hj Hi Hf HR Hn H0.
  - assert (j = i) as -> by lia.
    exists m, R; simpl; repeat split; auto.
  - simpl. destruct (j <? i) eqn:Hlt.
    + apply Z.ltb_lt in Hlt. rewrite Hn, nan_add_l.
      rewrite (Int_wrap_in_range (j + 1)) by (unfold N in *; lia).
      assert (HR' : full (set R (N * i + j) nan)) by (apply full_set; exact HR).
      destruct (IH (j + 1) (Int.wrap (m * 4)) (set R (N * i + j) nan))
        as (m' & R' & He & Hfull & Hd & Hz & Hb); try lia; try exact HR'.
      * replace (N * i + (j + 1) - 1) with (N * i + j) by lia.
        apply get_set_eq; [exact HR | unfold N in *; lia].
      * rewrite get_set_ne by (unfold N in *; lia); exact H0.
      * exists m', R'; repeat split; auto.
        rewrite Hb; apply back_set; [exact HR | unfold N in *; lia].
    + apply Z.ltb_ge in Hlt. assert (j = i) as -> by lia.
      exists m, R; repeat split; auto.
Qed.

Lemma row_nan (func : float -> float) (a : float) (i : Z) (R : table)
    (h : float) (np : Z) :
  2 <= i < N -> full R -> get R (N * (i - 1)) = nan ->
  exists R', row func a i R h np = Next R' (h / 2.0)%float (Int.wrap (np * 2)) /\
             full R' /\ get R' (N * i) = nan /\ get R' (N * i + i - 1) = nan.
Proof.
  intros Hi HR Hprev; unfold row.
  rewrite Hprev.
  change (0.5 * nan)%float with nan; rewrite nan_add_l.
  assert (HR1 : full (set R (N * i) nan)) by (apply full_set; exact HR).
  destruct (extrapolate_nan (Z.to_nat i) i 1 1 (set R (N * i) nan))
    as (m' & R' & He & Hfull & Hd & Hz & Hb); try lia; try exact HR1.
  - replace (N * i + 1 - 1) with (N * i) by lia.
    apply get_set_eq; [exact HR | unfold N in *; lia].
  - apply get_set_eq; [exact HR | unfold N in *; lia].
  - rewrite He.
    assert ((1 <? i) = true) as -> by (apply Z.ltb_lt; lia).
    rewrite Hd, nan_sub_l.
    change (Double.fabs nan <? prec)%float with false.
    exists R'; repeat split; auto.
Qed.

Lemma run_nan (fuel : nat) (func : float -> float) (a : float) (i : Z)
    (R : table) (h : float) (np : Z) :
  2 <= i <= N -> N - i <= Z.of_nat fuel -> full R ->
  get R (N * (i - 1)) = nan -> (i = N -> most_refined R = nan) ->
  exists R' h' np',
    run fuel func a i R h np = Next R' h' np' /\ most_refined R' = nan.
Proof.
  revert i R h np; induction fuel as [|fuel IH];
    intros i R h np Hi Hfuel HR Hprev Hlast.
  - exists R, h, np; split; [reflexivity | apply Hlast; lia].
  - rewrite run_step.
    destruct (i <? N) eqn:Hlt.
    + apply Z.ltb_lt in Hlt.
      destruct (row_nan func a i R h np) as (R' & -> & Hfull & Hz & Hd); auto;
        [lia |].
      rewrite (Int_wrap_in_range (i + 1)) by (unfold N in *; lia).
      apply IH; [lia | lia | exact Hfull | |].
      * replace (i + 1 - 1) with i by lia; exact Hz.
      * intros Hn; unfold most_refined.
        replace (N * (N - 1) + (N - 2)) with (N * i + i - 1) by lia; exact Hd.
    + apply Z.ltb_ge in Hlt.
      exists R, h, np; split; [reflexivity | apply Hlast; lia].
Qed.

End RombergNaN.

(** *** The integrand matters through its values only *)

Section RombergExt.

Import Romberg.

Variables func func' : float -> float.
Hypothesis func_ext : forall x, func x = func' x.

Lemma sum_loop_ext (a h : float) (np : Z) :
  sum_loop func a h np = sum_loop func' a h np.
Proof.
  unfold sum_loop.
  induction (Z.to_N np) as [|n IH] using N.peano_ind; [reflexivity |].
  rewrite !N.iter_succ, IH.
  clear IH; destruct (N.iter n _ _) as [k sumT]; unfold sum_turn.
  rewrite func_ext; reflexivity.
Qed.

Lemma row_ext (a : float) (i : Z) (R : table) (h : float) (np : Z) :
  row func a i R h np = row func' a i R h np.
Proof. unfold row; rewrite sum_loop_ext; reflexivity. Qed.

Lemma rows_ext (fuel : nat) (a : float) (i : Z) (R : table) (h : float) (np : Z) :
  rows fuel func a i R h np = rows fuel func' a i R h np.
Proof.
  revert i R h np; induction fuel as [|fuel IH]; intros i R h np; simpl;
    [reflexivity |].
  rewrite row_ext; destruct (i <? N); [| reflexivity].
  destruct (row func' a i R h np); [reflexivity | apply IH].
Qed.

Lemma romberg_ext (a b : float) : romberg func a b = romberg func' a b.
Proof. unfold romberg; rewrite !func_ext; apply rows_ext. Qed.

End RombergExt.

(** *** The return value at the iteration cap *)

Section RombergCap.

Import Romberg.

Lemma romberg_run (func : float -> float) (a b : float) :
  romberg func a b =
  match run_romberg func a b with
  | Return v => v
  | Next R _ _ => back R
  end.
Proof. unfold romberg, run_romberg; apply rows_run. Qed.

Lemma run_romberg_back (func : float -> float) (a b : float)
    (R : table) (h : float) (np : Z) :
  run_romberg func a b = Next R h np -> full R /\ back R = 0%float.
Proof.
  unfold run_romberg; intros Hrun.
  apply run_back in Hrun; [| apply full_set, full_init].
  destruct Hrun as [HR Hb]; split; [exact HR |].
  rewrite Hb, back_set; [apply back_init | apply full_init | reflexivity].
Qed.

(** C1 (the code departs from it).  When no row of the table passes the
    convergence test, [romberg] returns [R.back()], and that element,
    [R[N*N-1]], is one the loop never writes (row [i] holds the entries
    [0 .. i-1]): the value returned is the [0.0] the vector was created
    with, whatever the integrand and the interval, not the most refined
    estimate [R[N*(N-1) + N-2]] of the table. *)
Theorem romberg_cap_returns_initial_zero (func : float -> float) (a b : float) :
  hits_cap func a b = true -> romberg func a b = 0%float.
Proof.
  unfold hits_cap; rewrite romberg_run.
  destruct (run_romberg func a b) as [v | R h np] eqn:Hrun; [discriminate |].
  intros _; apply (run_romberg_back _ _ _ _ _ _ Hrun).
Qed.

(** The age integral of the bounce cosmology: the midpoint of the first
    refinement is NaN, and no row converges. *)
Lemma bounce_row1 :
  match row (ageIntegrand bounce) 0.0 1
            (set R_init 0 ((1.0 - Double.epsilon - 0.0) / 2
                           * (ageIntegrand bounce 0.0
                              + ageIntegrand bounce (1.0 - Double.epsilon))))
            (1.0 - Double.epsilon - 0.0) 1 with
  | Return _ => False
  | Next R' _ _ => full R' /\ get R' (N * (2 - 1)) = nan
  end.
Proof. vm_compute; split; reflexivity. Qed.

Lemma bounce_run :
  exists R h np,
    run_romberg (ageIntegrand bounce) 0.0 (1.0 - Double.epsilon) = Next R h np /\
    most_refined R = nan.
Proof.
  unfold run_romberg.
  change (Z.to_nat N) with (S 24); rewrite run_step.
  change (1 <? N) with true; cbv iota.
  pose proof bounce_row1 as H.
  destruct (row (ageIntegrand bounce) 0.0 1 _ _ 1) as [v | R' h' np'];
    [contradiction |].
  destruct H as [HR Hn].
  change (Int.wrap (1 + 1)) with 2.
  apply run_nan; [unfold N; lia | unfold N; lia | exact HR | exact Hn |].
  unfold N; lia.
Qed.

Lemma bounce_hits_cap :
  hits_cap (ageIntegrand bounce) 0.0 (1.0 - Double.epsilon) = true.
Proof.
  unfold hits_cap; destruct bounce_run as (R & h & np & -> & _); reflexivity.
Qed.

End RombergCap.

(** ** Class Cosmo: what each member function leaves in each member *)

Ltac members :=
  cbn [negb set_H0 set_q0 set_OmegaM set_OmegaL set_Omegak set_dH set_z set_dA
       set_dL set_dC set_dM set_VC set_tL set_age set_scale set_rhoCrit
       H0_ q0_ OmegaM_ OmegaL_ Omegak_ dH_ z_ dA_ dL_ dC_ dM_ VC_ tL_ age_
       scale_ rhoCrit_].

Ltac split_ifs :=
  repeat match goal with
         | |- context [if ?b then _ else _] => destruct b
         end.

Section MemberFacts.

Context {libm : Libm}.

Lemma init_raw (this this' : Cosmo) (h m l : float) :
  init this h m l = init this' h m l.
Proof. unfold init; members; split_ifs; reflexivity. Qed.

Lemma init_params (this : Cosmo) (h m l : float) :
  H0_ (init this h m l) = h /\ OmegaM_ (init this h m l) = m /\
  OmegaL_ (init this h m l) = l.
Proof. unfold init; members; split_ifs; repeat split. Qed.

Lemma init_Omegak (this : Cosmo) (h m l : float) :
  Omegak_ (init this h m l) = curvature m l.
Proof. unfold init, curvature; members; split_ifs; reflexivity. Qed.

Lemma init_derived (this : Cosmo) (h m l : float) :
  q0_ (init this h m l) = (0.5 * m - l)%float /\
  dH_ (init this h m l) = (c / h)%float.
Proof. unfold init; members; split_ifs; split; reflexivity. Qed.

(** [init] leaves the redshift and everything computed from it at [0]. *)
Lemma init_zeroes (this : Cosmo) (h m l : float) :
  let s := init this h m l in
  z_ s = 0%float /\ dC_ s = 0%float /\ dM_ s = 0%float /\ dA_ s = 0%float /\
  dL_ s = 0%float /\ VC_ s = 0%float /\ tL_ s = 0%float /\
  scale_ s = 0%float /\ rhoCrit_ s = 0%float.
Proof. cbv zeta; unfold init; members; repeat split. Qed.

(** The integrands read [OmegaM_], [Omegak_] and [OmegaL_] only. *)
Lemma E_params (s s' : Cosmo) (z : float) :
  OmegaM_ s = OmegaM_ s' -> Omegak_ s = Omegak_ s' -> OmegaL_ s = OmegaL_ s' ->
  E s z = E s' z.
Proof. unfold E; intros -> -> ->; reflexivity. Qed.

Lemma init_age (this : Cosmo) (h m l : float) :
  age_ (init this h m l) =
  (Romberg.romberg (ageIntegrand (init this h m l)) 0.0 (1.0 - Double.epsilon)
   / h * kmPerMpc)%float.
Proof. unfold init; members; split_ifs; reflexivity. Qed.

(** [setDistances] writes the members computed from the redshift only. *)
Lemma setDistances_frame (this : Cosmo) :
  let s := setDistances this in
  H0_ s = H0_ this /\ OmegaM_ s = OmegaM_ this /\ OmegaL_ s = OmegaL_ this /\
  Omegak_ s = Omegak_ this /\ q0_ s = q0_ this /\ dH_ s = dH_ this /\
  age_ s = age_ this /\ z_ s = z_ this.
Proof. cbv zeta; unfold setDistances; members; split_ifs; repeat split. Qed.

Lemma setDistances_rhoCrit (this : Cosmo) :
  rhoCrit_ (setDistances this) =
  critical_density (H0_ this) (OmegaM_ this) (OmegaL_ this) (z_ this).
Proof. unfold setDistances, critical_density; members; split_ifs; reflexivity. Qed.


(** The line-of-sight comoving distance for a set redshift. *)
Lemma setDistances_dC (this : Cosmo) :
  dC_ (setDistances this) =
  if Double.truthy (z_ this)
  then (dH_ this * Romberg.romberg (inverseOfE this) 0 (z_ this))%float
  else 0%float.
Proof.
  unfold setDistances; members.
  destruct (Double.truthy (z_ this)); members; [| reflexivity].
  split_ifs; reflexivity.
Qed.


(** The flat branch of [setDistances]. *)
Lemma setDistances_flat (this : Cosmo) :
  Omegak_ this = 0%float ->
  let s := setDistances this in
  dM_ s = dC_ s /\ VC_ s = (4 * PI * CUBE (dC_ s) / 3 / 1e9)%float.
Proof.
  intros Hk; cbv zeta; unfold setDistances; members; rewrite Hk.
  change (0 <? 0)%float with false; members.
  destruct (Double.truthy (z_ this)); members; split; reflexivity.
Qed.

Lemma setCosmology_init (this : Cosmo) (h m l : float) :
  setCosmology this h m l = init this h m l.
Proof.
  unfold setCosmology.
  assert (Hz : z_ (init this h m l) = 0%float) by apply init_zeroes.
  cbv zeta; rewrite Hz; reflexivity.
Qed.

End MemberFacts.

(** ** The age of a cosmology whose integrand is NaN *)

Section RombergCapWitness.

Import Romberg.

(** The age integrand of an object built with the parameters of [bounce]. *)
Lemma bounce_integrand (raw : Cosmo) (h x : float) :
  ageIntegrand (init raw h 0.3 2.0) x = ageIntegrand bounce x.
Proof.
  unfold ageIntegrand.
  rewrite (E_params (init raw h 0.3 2.0) bounce); [reflexivity | | |].
  - destruct (init_params raw h 0.3 2.0) as (_ & -> & _); reflexivity.
  - rewrite init_Omegak; reflexivity.
  - destruct (init_params raw h 0.3 2.0) as (_ & _ & ->); reflexivity.
Qed.

(** The theorem above at the age integral of the bounce cosmology,
    [Cosmo(70, 0.3, 2.0)]: the most refined estimate of the final table is
    NaN, [romberg] returns [0.0], and the age the object stores is [0]. *)
Lemma romberg_cap_witness :
  hits_cap (ageIntegrand bounce) 0.0 (1.0 - Double.epsilon) = true /\
  romberg (ageIntegrand bounce) 0.0 (1.0 - Double.epsilon) = 0%float /\
  (exists R h np,
     run_romberg (ageIntegrand bounce) 0.0 (1.0 - Double.epsilon) = Next R h np /\
     most_refined R = nan) /\
  age_ (Cosmo_params raw0 70 0.3 2.0) = 0%float.
Proof.
  pose proof (romberg_cap_returns_initial_zero (ageIntegrand bounce) 0.0
                (1.0 - Double.epsilon) bounce_hits_cap) as Hzero.
  split; [exact bounce_hits_cap |].
  split; [exact Hzero |].
  split; [exact bounce_run |].
  unfold Cosmo_params; rewrite init_age.
  rewrite (romberg_ext _ _ (bounce_integrand raw0 70)), Hzero.
  reflexivity.
Defined.

End RombergCapWitness.

(** ** The state machine *)

Section StateMachine.

Context {libm : Libm}.

Lemma setRedshift_frame (this : Cosmo) (z : float) :
  let s := setRedshift this z in
  H0_ s = H0_ this /\ OmegaM_ s = OmegaM_ this /\ OmegaL_ s = OmegaL_ this /\
  Omegak_ s = Omegak_ this /\ q0_ s = q0_ this /\ dH_ s = dH_ this /\
  age_ s = age_ this /\ z_ s = z.
Proof.
  cbv zeta; unfold setRedshift.
  destruct (setDistances_frame (set_z z this))
    as (H1 & H2 & H3 & H4 & H5 & H6 & H7 & H8).
  repeat split; assumption.
Qed.

(** C2 (the code departs from it).  [setCosmology] calls [init], which
    sets [z_ = 0], before it tests [z_]: the test never succeeds, so the
    call is [init] alone.  Whatever redshift the object had, afterwards the
    redshift is [0] and every quantity computed from it is [0]: nothing is
    recomputed for the redshift set before. *)
Theorem setCosmology_discards_redshift (this : Cosmo) (h m l : float) :
  let s := setCosmology this h m l in
  s = init this h m l /\
  z_ s = 0%float /\ dC_ s = 0%float /\ dM_ s = 0%float /\ dA_ s = 0%float /\
  dL_ s = 0%float /\ VC_ s = 0%float /\ tL_ s = 0%float /\
  scale_ s = 0%float /\ rhoCrit_ s = 0%float.
Proof.
  cbv zeta; rewrite setCosmology_init; split; [reflexivity |].
  apply init_zeroes.
Qed.

End StateMachine.

Section Examples.

#[local] Existing Instance libm_uncalled.

(** The same at an object with redshift [1]: the redshift is lost. *)
Example setCosmology_after_setRedshift :
  let this := setRedshift (Cosmo_params raw0 70 0.3 0.7) 1 in
  z_ this = 1%float /\
  z_ (setCosmology this 50 0.3 0.7) = 0%float /\
  dC_ (setCosmology this 50 0.3 0.7) = 0%float.
Proof.
  cbv zeta; split; [apply setRedshift_frame |].
  rewrite setCosmology_init; split; apply init_zeroes.
Qed.

End Examples.

(** ** Redshift zero *)

Section RedshiftZero.

Context {libm : Libm}.

Lemma setRedshift_rhoCrit (this : Cosmo) (z : float) :
  rhoCrit_ (setRedshift this z) =
  critical_density (H0_ this) (OmegaM_ this) (OmegaL_ this) z.
Proof. unfold setRedshift; rewrite setDistances_rhoCrit; reflexivity. Qed.



End RedshiftZero.

Section RedshiftZeroExamples.

#[local] Existing Instance libm_uncalled.


End RedshiftZeroExamples.

(** ** Invariants of the reachable states *)

Section Invariants.

Context {libm : Libm}.

Lemma clone_unfold (this a : Cosmo) :
  clone this a = setRedshift (init this (H0_ a) (OmegaM_ a) (OmegaL_ a)) (z_ a).
Proof. reflexivity. Qed.


(** No member function sets [Omegak_] to anything but the value [init]
    computes from the parameters. *)
Lemma Omegak_reachable (s : Cosmo) :
  reachable s -> Omegak_ s = curvature (OmegaM_ s) (OmegaL_ s).
Proof.
  induction 1 as [raw | raw h m l | raw a Ha IHa | this a Hthis IHthis Ha IHa
                 | this h m l Hthis IH | this z Hthis IH | this h m l Hthis IH].
  - unfold Cosmo_default; rewrite init_Omegak.
    destruct (init_params raw 67.04 0.3183 0.6817) as (_ & -> & ->); reflexivity.
  - unfold Cosmo_params; rewrite init_Omegak.
    destruct (init_params raw h m l) as (_ & -> & ->); reflexivity.
  - unfold Cosmo_copy; rewrite clone_unfold.
    destruct (setRedshift_frame (init raw (H0_ a) (OmegaM_ a) (OmegaL_ a)) (z_ a))
      as (_ & -> & -> & -> & _).
    rewrite init_Omegak.
    destruct (init_params raw (H0_ a) (OmegaM_ a) (OmegaL_ a)) as (_ & -> & ->).
    reflexivity.
  - rewrite clone_unfold.
    destruct (setRedshift_frame (init this (H0_ a) (OmegaM_ a) (OmegaL_ a)) (z_ a))
      as (_ & -> & -> & -> & _).
    rewrite init_Omegak.
    destruct (init_params this (H0_ a) (OmegaM_ a) (OmegaL_ a)) as (_ & -> & ->).
    reflexivity.
  - rewrite setCosmology_init, init_Omegak.
    destruct (init_params this h m l) as (_ & -> & ->); reflexivity.
  - destruct (setRedshift_frame this z) as (_ & -> & -> & -> & _); exact IH.
  - unfold getCosmologyFromUser; rewrite init_Omegak.
    destruct (init_params this h m l) as (_ & -> & ->); reflexivity.
Qed.

(** C4.  In every state the public interface can produce, [Omegak_] is
    [1 - OmegaM_ - OmegaL_], or exactly [0] when the absolute value of that
    difference is at most the machine epsilon; construction and
    [setCosmology] with the inputs [h], [m], [l] store the parameters and
    that value for them, and [setRedshift] changes none of the three. *)
Theorem Omegak_invariant (s : Cosmo) (raw : Cosmo) (h m l z : float) :
  reachable s ->
  Omegak_ s = curvature (OmegaM_ s) (OmegaL_ s) /\
  Omegak_ (Cosmo_params raw h m l) = curvature m l /\
  OmegaM_ (Cosmo_params raw h m l) = m /\ OmegaL_ (Cosmo_params raw h m l) = l /\
  Omegak_ (setCosmology s h m l) = curvature m l /\
  OmegaM_ (setCosmology s h m l) = m /\ OmegaL_ (setCosmology s h m l) = l /\
  Omegak_ (setRedshift s z) = Omegak_ s /\
  OmegaM_ (setRedshift s z) = OmegaM_ s /\ OmegaL_ (setRedshift s z) = OmegaL_ s.
Proof.
  intros Hs; split; [exact (Omegak_reachable s Hs) |].
  unfold Cosmo_params.
  rewrite (setCosmology_init s h m l), (init_Omegak raw h m l),
    (init_Omegak s h m l).
  destruct (init_params raw h m l) as (_ & -> & ->).
  destruct (init_params s h m l) as (_ & -> & ->).
  destruct (setRedshift_frame s z) as (_ & -> & -> & -> & _).
  repeat split.
Qed.



Lemma setRedshift_flat (this : Cosmo) (z : float) :
  Omegak_ this = 0%float ->
  let s := setRedshift this z in
  dM_ s = dC_ s /\ VC_ s = (4 * PI * CUBE (dC_ s) / 3 / 1e9)%float.
Proof. intros Hk; unfold setRedshift; apply setDistances_flat; exact Hk. Qed.

(** C6.  For parameters with [|1 - OmegaM - OmegaL|] at most the machine
    epsilon (the flat case) and every redshift, the state computed by
    [setRedshift] has [dM = dC] and [VC = 4 * PI * dC^3 / 3 / 1e9]. *)
Theorem flat_dM_VC (raw : Cosmo) (h m l z : float) :
  (Double.fabs (1.0 - m - l) <=? Double.epsilon)%float = true ->
  let s := setRedshift (Cosmo_params raw h m l) z in
  dM_ s = dC_ s /\ VC_ s = (4 * PI * CUBE (dC_ s) / 3 / 1e9)%float.
Proof.
  intros Hflat; cbv zeta; unfold Cosmo_params.
  apply setRedshift_flat.
  rewrite init_Omegak; unfold curvature; cbv zeta; rewrite Hflat; reflexivity.
Qed.

(** C7.  [init] computes the age as
    [romberg(ageIntegrand, 0, 1 - epsilon) / H0 * kmPerMpc], with the
    integrand [1 / (1+z) / E(z) / (1-x)^2] at [z = x / (1-x)], [E] being
    taken at the parameters just stored; the upper bound is below [1];
    [setCosmology] computes it again, and [setRedshift] leaves it as it
    is. *)
Theorem age_computed_by_init (this : Cosmo) (h m l : float) :
  let s := init this h m l in
  age_ s =
    (Romberg.romberg (ageIntegrand s) 0.0 (1.0 - Double.epsilon) / h
     * kmPerMpc)%float /\
  (forall x : float,
     ageIntegrand s x =
     (1.0 / (1 + x / (1 - x))
      / Double.sqrt (m * CUBE (1 + x / (1 - x))
                     + curvature m l * SQR (1 + x / (1 - x)) + l)
      / SQR (1 - x))%float) /\
  (1.0 - Double.epsilon <? 1.0)%float = true /\
  (1.0 - Double.epsilon <> 1.0)%float /\
  age_ (setCosmology this h m l) = age_ s /\
  (forall (o : Cosmo) (z : float), age_ (setRedshift o z) = age_ o).
Proof.
  cbv zeta; split; [apply init_age |].
  split.
  { intros x; unfold ageIntegrand, E.
    rewrite init_Omegak.
    destruct (init_params this h m l) as (_ & -> & ->); reflexivity. }
  split; [reflexivity |].
  split; [intros H; discriminate (f_equal (fun x => (x <? 1.0)%float) H) |].
  split; [rewrite setCosmology_init; reflexivity |].
  intros o z; apply setRedshift_frame.
Qed.

End Invariants.

(** ** Copies *)

Section Copies.

Context {libm : Libm}.

(** What [clone] builds from [a]: a fresh object with [a]'s parameters, then
    [setRedshift(a.z_)]. *)
Lemma clone_rebuild (this fresh a : Cosmo) :
  clone this a =
  setRedshift (Cosmo_params fresh (H0_ a) (OmegaM_ a) (OmegaL_ a)) (z_ a).
Proof.
  rewrite clone_unfold; unfold Cosmo_params.
  rewrite (init_raw this fresh); reflexivity.
Qed.

Lemma clone_members (this a : Cosmo) :
  H0_ (clone this a) = H0_ a /\ OmegaM_ (clone this a) = OmegaM_ a /\
  OmegaL_ (clone this a) = OmegaL_ a /\ z_ (clone this a) = z_ a.
Proof.
  rewrite clone_unfold.
  destruct (setRedshift_frame (init this (H0_ a) (OmegaM_ a) (OmegaL_ a)) (z_ a))
    as (-> & -> & -> & _ & _ & _ & _ & ->).
  destruct (init_params this (H0_ a) (OmegaM_ a) (OmegaL_ a)) as (-> & -> & ->).
  repeat split.
Qed.

(** C10.  Copy construction from [a], and assignment of [a] to another
    object, give an object with [a]'s parameters and [a]'s redshift, equal
    in every member to a fresh object built with [a]'s parameters on which
    [setRedshift(a.z_)] was called; the source is left as it is.  (By
    contrast [setCosmology] with the same parameters leaves the redshift
    at [0].) *)
Theorem copy_keeps_redshift (mem : store) (raw fresh : Cosmo) (this a b : addr)
    (o src : Cosmo) :
  mem !! a = Some src -> mem !! this = Some o -> this <> a -> b <> a ->
  let rebuilt :=
    setRedshift (Cosmo_params fresh (H0_ src) (OmegaM_ src) (OmegaL_ src))
                (z_ src) in
  copy_construct mem raw b a !! b = Some rebuilt /\
  copy_construct mem raw b a !! a = Some src /\
  operator_assign mem this a !! this = Some rebuilt /\
  operator_assign mem this a !! a = Some src /\
  H0_ rebuilt = H0_ src /\ OmegaM_ rebuilt = OmegaM_ src /\
  OmegaL_ rebuilt = OmegaL_ src /\ z_ rebuilt = z_ src /\
  z_ (setCosmology src (H0_ src) (OmegaM_ src) (OmegaL_ src)) = 0%float.
Proof.
  intros Ha Hthis Hne Hb; cbv zeta.
  rewrite <- (clone_rebuild raw fresh src).
  unfold copy_construct, operator_assign, Cosmo_copy.
  rewrite Ha, Hthis.
  destruct (decide (this = a)) as [Heq | _]; [contradiction |].
  rewrite !lookup_insert_eq, !lookup_insert_ne by done.
  rewrite (clone_rebuild o raw src), <- (clone_rebuild raw raw src).
  destruct (clone_members raw src) as (H1 & H2 & H3 & H4).
  do 2 (split; [reflexivity |]; split; [exact Ha |]).
  split; [exact H1 |]; split; [exact H2 |]; split; [exact H3 |].
  split; [exact H4 |].
  rewrite setCosmology_init; apply init_zeroes.
Qed.

End Copies.

Section InvariantExamples.

#[local] Existing Instance libm_uncalled.

Lemma sample_state_reachable : reachable sample_state.
Proof.
  unfold sample_state.
  apply reach_setRedshift, reach_setCosmology, reach_setRedshift, reach_default.
Qed.

Lemma Omegak_invariant_witness :
  reachable sample_state /\
  Omegak_ sample_state = curvature (OmegaM_ sample_state) (OmegaL_ sample_state).
Proof.
  split; [exact sample_state_reachable |].
  exact (proj1 (Omegak_invariant sample_state raw0 70 0.3 0.7 1
                  sample_state_reachable)).
Defined.


Lemma flat_dM_VC_witness :
  (Double.fabs (1.0 - 0.3 - 0.7) <=? Double.epsilon)%float = true /\
  dM_ (setRedshift (Cosmo_params raw0 70 0.3 0.7) 1)
  = dC_ (setRedshift (Cosmo_params raw0 70 0.3 0.7) 1) /\
  VC_ (setRedshift (Cosmo_params raw0 70 0.3 0.7) 1)
  = (4 * PI * CUBE (dC_ (setRedshift (Cosmo_params raw0 70 0.3 0.7) 1)) / 3
     / 1e9)%float.
Proof.
  split; [reflexivity |].
  exact (flat_dM_VC raw0 70 0.3 0.7 1 eq_refl).
Defined.

Lemma copy_keeps_redshift_witness :
  sample_store !! 0%nat = Some sample_state /\
  operator_assign sample_store 1 0 !! 1%nat
  = Some (setRedshift (Cosmo_params raw0 (H0_ sample_state) (OmegaM_ sample_state)
                                    (OmegaL_ sample_state)) (z_ sample_state)) /\
  z_ (setRedshift (Cosmo_params raw0 (H0_ sample_state) (OmegaM_ sample_state)
                                (OmegaL_ sample_state)) (z_ sample_state))
  = z_ sample_state.
Proof.
  assert (H0 : sample_store !! 0%nat = Some sample_state).
  { unfold sample_store.
    rewrite lookup_insert_ne by discriminate; apply lookup_insert_eq. }
  assert (H1 : sample_store !! 1%nat = Some (Cosmo_default raw0))
    by apply lookup_insert_eq.
  pose proof (copy_keeps_redshift sample_store raw0 raw0 1%nat 0%nat 2%nat
                (Cosmo_default raw0) sample_state H0 H1
                ltac:(discriminate) ltac:(discriminate)) as H.
  cbv zeta in H.
  split; [exact H0 |].
  split; [exact (proj1 (proj2 (proj2 H))) |].
  exact (proj1 (proj2 (proj2 (proj2 (proj2 (proj2 (proj2 (proj2 H)))))))).
Defined.

End InvariantExamples.

(** ** The comoving distance as a function of the redshift *)


Section ComovingDistance.

Context {libm : Libm}.

Lemma setRedshift_dC (this : Cosmo) (z : float) :
  dC_ (setRedshift this z) =
  if Double.truthy z
  then (dH_ this * Romberg.romberg (inverseOfE this) 0 z)%float
  else 0%float.
Proof.
  unfold setRedshift; rewrite setDistances_dC; members.
  destruct (Double.truthy z); [| reflexivity].
  apply (f_equal (PrimFloat.mul (dH_ this))), romberg_ext; intros x; reflexivity.
Qed.


End ComovingDistance.

Section ComovingDistanceExamples.

#[local] Existing Instance libm_uncalled.





End ComovingDistanceExamples.

Section ComovingDistanceSamples.

Context {libm : Libm}.


End ComovingDistanceSamples.

(** ** The numeric-input validator *)

Section IsNumeric.


Lemma of_size_t_npos : Int.of_size_t Int.npos = -1.
Proof. reflexivity. Qed.

Lemma of_size_t_index (k : Z) : 0 <= k < 2147483648 -> Int.of_size_t k = k.
Proof. intros H; apply Int_wrap_in_range; lia. Qed.

Lemma length_list_ascii_of_string (s : string) :
  List.length (list_ascii_of_string s) = String.length s.
Proof. induction s as [|ch s IH]; simpl; [reflexivity | rewrite IH; reflexivity]. Qed.

Lemma find_first_not_of_from_spec (l chars : list ascii) (i : Z) :
  if forallb (fun ch => existsb (Ascii.eqb ch) chars) l
  then Str.find_first_not_of_from l chars i = Int.npos
  else i <= Str.find_first_not_of_from l chars i < i + Z.of_nat (List.length l).
Proof.
  revert i; induction l as [|x l IH]; intros i; [reflexivity |].
  cbn [forallb Str.find_first_not_of_from List.length].
  destruct (existsb (Ascii.eqb x) chars); cbn [andb].
  - specialize (IH (i + 1)).
    destruct (forallb _ l); [exact IH | lia].
  - lia.
Qed.

Lemma count_char_cons (ch x : ascii) (l : list ascii) :
  count_char ch (x :: l) =
  if Ascii.eqb x ch then S (count_char ch l) else count_char ch l.
Proof. unfold count_char; cbn [List.filter]; destruct (Ascii.eqb x ch); reflexivity. Qed.

Lemma existsb_count_char (ch : ascii) (l : list ascii) :
  existsb (fun x => Ascii.eqb x ch) l =
  match count_char ch l with O => false | S _ => true end.
Proof.
  induction l as [|x l IH]; [reflexivity |].
  rewrite count_char_cons; cbn [existsb].
  destruct (Ascii.eqb x ch); [reflexivity | exact IH].
Qed.

(** A search that starts at or before the first character. *)
Lemma find_from_plain (l : list ascii) (ch : ascii) (pos i : Z) :
  pos <= i ->
  match count_char ch l with
  | O => Str.find_from l ch pos i = Int.npos
  | S _ => i <= Str.find_from l ch pos i < i + Z.of_nat (List.length l)
  end.
Proof.
  revert i; induction l as [|x l IH]; intros i Hpos; [reflexivity |].
  rewrite count_char_cons; cbn [Str.find_from List.length].
  assert ((pos <=? i) = true) as -> by (apply Z.leb_le; lia).
  cbn [andb]; destruct (Ascii.eqb x ch); [lia |].
  specialize (IH (i + 1) ltac:(lia)).
  destruct (count_char ch l); [exact IH | lia].
Qed.

(** The first occurrence, and the search resumed just after it. *)
Lemma find_from_twice (l : list ascii) (ch : ascii) (pos i : Z) :
  pos <= i ->
  match count_char ch l with
  | O => Str.find_from l ch pos i = Int.npos
  | S O =>
      i <= Str.find_from l ch pos i < i + Z.of_nat (List.length l) /\
      Str.find_from l ch (Str.find_from l ch pos i + 1) i = Int.npos
  | S (S _) =>
      i <= Str.find_from l ch pos i < i + Z.of_nat (List.length l) /\
      Str.find_from l ch pos i + 1
      <= Str.find_from l ch (Str.find_from l ch pos i + 1) i
      < i + Z.of_nat (List.length l)
  end.
Proof.
  revert i; induction l as [|x l IH]; intros i Hpos; [reflexivity |].
  rewrite count_char_cons; cbn [Str.find_from List.length].
  assert ((pos <=? i) = true) as -> by (apply Z.leb_le; lia).
  cbn [andb]; destruct (Ascii.eqb x ch) eqn:Hx.
  - assert ((i + 1 <=? i) = false) as -> by (apply Z.leb_gt; lia).
    cbn [andb].
    pose proof (find_from_plain l ch (i + 1) (i + 1) ltac:(lia)) as H.
    destruct (count_char ch l); [split; [lia | exact H] | lia].
  - specialize (IH (i + 1) ltac:(lia)).
    destruct (count_char ch l) as [|[|n]]; [exact IH | |].
    + destruct IH as [Hr H2].
      assert ((Str.find_from l ch pos (i + 1) + 1 <=? i) = false) as ->
        by (apply Z.leb_gt; lia).
      cbn [andb]; split; [lia | exact H2].
    + destruct IH as [Hr H2].
      assert ((Str.find_from l ch pos (i + 1) + 1 <=? i) = false) as ->
        by (apply Z.leb_gt; lia).
      cbn [andb]; lia.
Qed.

(** What [isNumeric] decides, for every token shorter than [2^31]
    characters: the token is made of the characters [-0123456789.], has no
    [-] after its first character, and has at most one [.]. *)
Lemma isNumeric_shape (text : string) :
  Z.of_nat (String.length text) < 2147483648 ->
  isNumeric text = if accepted_shape text then 1 else 0.
Proof.
  intros Hlen; unfold isNumeric, accepted_shape, Str.find_first_not_of, Str.find.
  rewrite <- length_list_ascii_of_string in *.
  set (l := list_ascii_of_string text) in *.
  rewrite (of_size_t_index (Z.of_nat (List.length l))) by lia.
  pose proof (find_first_not_of_from_spec l
                (list_ascii_of_string "-0123456789.") 0) as H1.
  change (forallb allowed_char l)
    with (forallb (fun ch => existsb (Ascii.eqb ch)
                               (list_ascii_of_string "-0123456789.")) l).
  destruct (forallb _ l).
  2:{ rewrite of_size_t_index by lia.
      assert ((0 <=? Str.find_first_not_of_from l
                       (list_ascii_of_string "-0123456789.") 0) = true) as ->
        by (apply Z.leb_le; lia).
      assert ((Str.find_first_not_of_from l
                 (list_ascii_of_string "-0123456789.") 0
               <? Z.of_nat (List.length l)) = true) as ->
        by (apply Z.ltb_lt; lia).
      reflexivity. }
  rewrite H1, of_size_t_npos; cbn [Z.leb Z.compare andb].
  (* a minus sign after the first character *)
  assert (H2 : if existsb (fun x => Ascii.eqb x "-") (List.tl l)
               then 1 <= Str.find_from l "-" 1 0 < Z.of_nat (List.length l)
               else Str.find_from l "-" 1 0 = Int.npos).
  { destruct l as [|x l']; [reflexivity |].
    cbn [List.tl Str.find_from List.length]; change (1 <=? 0) with false.
    cbn [andb]; change (0 + 1) with 1.
    pose proof (find_from_plain l' "-" 1 1 ltac:(lia)) as H.
    rewrite existsb_count_char.
    destruct (count_char "-" l'); [exact H | lia]. }
  destruct (existsb _ (List.tl l)).
  { rewrite of_size_t_index by lia.
    assert ((0 <? Str.find_from l "-" 1 0) = true) as -> by (apply Z.ltb_lt; lia).
    assert ((Str.find_from l "-" 1 0 <? Z.of_nat (List.length l)) = true) as ->
      by (apply Z.ltb_lt; lia).
    reflexivity. }
  rewrite H2, of_size_t_npos; cbn [Z.ltb Z.compare andb negb].
  (* decimal points *)
  pose proof (find_from_twice l "." 0 0 ltac:(lia)) as H3.
  destruct (count_char "." l) as [|[|n]].
  - rewrite H3, of_size_t_npos; reflexivity.
  - destruct H3 as [Hr H4].
    rewrite (of_size_t_index (Str.find_from l "." 0 0)) by lia.
    assert ((0 <=? Str.find_from l "." 0 0) = true) as -> by (apply Z.leb_le; lia).
    assert ((Str.find_from l "." 0 0 <? Z.of_nat (List.length l)) = true) as ->
      by (apply Z.ltb_lt; lia).
    cbn [andb]; rewrite (Int_wrap_in_range (Str.find_from l "." 0 0 + 1)) by lia.
    rewrite H4, of_size_t_npos; reflexivity.
  - destruct H3 as [Hr H4].
    rewrite (of_size_t_index (Str.find_from l "." 0 0)) by lia.
    assert ((0 <=? Str.find_from l "." 0 0) = true) as -> by (apply Z.leb_le; lia).
    assert ((Str.find_from l "." 0 0 <? Z.of_nat (List.length l)) = true) as ->
      by (apply Z.ltb_lt; lia).
    cbn [andb]; rewrite (Int_wrap_in_range (Str.find_from l "." 0 0 + 1)) by lia.
    rewrite of_size_t_index by lia.
    assert ((0 <=? Str.find_from l "." (Str.find_from l "." 0 0 + 1) 0) = true)
      as -> by (apply Z.leb_le; lia).
    assert ((Str.find_from l "." (Str.find_from l "." 0 0 + 1) 0
             <? Z.of_nat (List.length l)) = true) as -> by (apply Z.ltb_lt; lia).
    reflexivity.
Qed.

(** C9 (the code departs from it).  [isNumeric] accepts tokens that are
    not numbers: a lone minus sign, a lone decimal point, a minus sign
    followed by a decimal point, and the empty token have no digit and pass
    all three tests. *)
Theorem isNumeric_accepts_digitless_tokens :
  isNumeric "-" = 1 /\ isNumeric "." = 1 /\ isNumeric "-." = 1 /\
  isNumeric "" = 1 /\
  has_digit "-" = false /\ has_digit "." = false /\ has_digit "-." = false /\
  has_digit "" = false.
Proof. vm_compute; repeat split. Qed.

(** Tokens the validator is used on, for comparison. *)
Example isNumeric_samples :
  isNumeric "-12.5" = 1 /\ isNumeric "0.3183" = 1 /\ isNumeric "1-2" = 0 /\
  isNumeric "1.2.3" = 0 /\ isNumeric "--1" = 0 /\ isNumeric "1e5" = 0 /\
  isNumeric "abc" = 0.
Proof. vm_compute; repeat split. Qed.

End IsNumeric.

(** * Further properties of the code *)

(** ** NaN in double arithmetic *)

Lemma nan_add_r (x : float) : (x + nan)%float = nan.
Proof.
  apply Prim2SF_inj; rewrite add_spec, Prim2SF_nan.
  destruct (Prim2SF x); reflexivity.
Qed.

Lemma nan_mul_r (x : float) : (x * nan)%float = nan.
Proof.
  apply Prim2SF_inj; rewrite mul_spec, Prim2SF_nan.
  destruct (Prim2SF x); reflexivity.
Qed.

Lemma nan_div_r (x : float) : (x / nan)%float = nan.
Proof.
  apply Prim2SF_inj; rewrite div_spec, Prim2SF_nan.
  destruct (Prim2SF x); reflexivity.
Qed.

Lemma nan_div_l (x : float) : (nan / x)%float = nan.
Proof. apply Prim2SF_inj; rewrite div_spec, Prim2SF_nan; reflexivity. Qed.

Lemma nan_mul_l (x : float) : (nan * x)%float = nan.
Proof. apply Prim2SF_inj; rewrite mul_spec, Prim2SF_nan; reflexivity. Qed.

(** ** The first row of the Romberg table *)

Section RombergFirstRow.

Import Romberg.

(** With two panels the summation loop takes one turn, at [k = 1]. *)
Lemma sum_loop_two (func : float -> float) (a h : float) :
  sum_loop func a h 2 = (3, (0 + func (a + 1 * h))%float).
Proof. reflexivity. Qed.

Lemma extrapolate_row_1 (R : table) : extrapolate (Z.to_nat 1) 1 1 1 R = (1, 1, R).
Proof. reflexivity. Qed.

(** Row 1 in full: the two-panel trapezoid estimate is stored in [R[N]],
    no extrapolation takes place, and the convergence test looks at [R[0]]
    itself. *)
Lemma row_1 (func : float -> float) (a : float) (R : table) (h : float) :
  full R ->
  row func a 1 R h 1 =
  let v := (0.5 * get R 0 + h / 2.0 * (0 + func (a + 1 * (h / 2.0))))%float in
  if (Double.fabs (get R 0) <? prec)%float
  then Return v
  else Next (set R N v) (h / 2.0)%float 2.
Proof.
  intros HR; unfold row.
  change (Int.wrap (1 * 2)) with 2; rewrite sum_loop_two.
  cbn [snd]; change (N * 1) with N; change (N * (1 - 1)) with 0.
  rewrite extrapolate_row_1; cbv beta iota zeta.
  change (1 <? 1) with false; cbv iota; change (N + 1 - 1) with N.
  rewrite get_set_ne by (unfold N; lia).
  rewrite get_set_eq by (try exact HR; unfold N; lia).
  reflexivity.
Qed.

Lemma run_romberg_row_1 (func : float -> float) (a b : float) :
  run_romberg func a b =
  let R0 := ((b - a) / 2 * (func a + func b))%float in
  let v := (0.5 * R0
            + (b - a) / 2.0 * (0 + func (a + 1 * ((b - a) / 2.0))))%float in
  if (Double.fabs R0 <? prec)%float
  then Return v
  else run 24 func a 2 (set (set R_init 0 R0) N v) ((b - a) / 2.0)%float 2.
Proof.
  unfold run_romberg; cbv zeta.
  change (Z.to_nat N) with (S 24); rewrite run_step.
  change (1 <? N) with true; cbv iota.
  rewrite row_1 by apply full_set, full_init.
  cbv zeta; rewrite get_set_eq by (try apply full_init; unfold N; lia).
  destruct (Double.fabs _ <? prec)%float; reflexivity.
Qed.

(** X1: early return on the first row.  The convergence test of row 1 does
    not compare two estimates: it compares the one-panel estimate [R[0]]
    itself with the tolerance.  Whenever [|h/2 * (f(a) + f(b))| < 1e-8],
    [romberg] returns the two-panel trapezoid estimate, after a single
    evaluation of the integrand inside the interval. *)
Theorem romberg_returns_after_first_row (func : float -> float) (a b : float) :
  (Double.fabs ((b - a) / 2 * (func a + func b)) <? prec)%float = true ->
  romberg func a b =
  (0.5 * ((b - a) / 2 * (func a + func b))
   + (b - a) / 2.0 * (0 + func (a + 1 * ((b - a) / 2.0))))%float.
Proof.
  intros H; rewrite romberg_run, run_romberg_row_1; cbv zeta.
  rewrite H; reflexivity.
Qed.

(** The integrand [x^2 - x] on [0, 1]: it vanishes at both ends, the exact
    integral is [-1/6], and [romberg] returns [-0.125]. *)
Lemma romberg_returns_after_first_row_witness :
  (Double.fabs ((1 - 0) / 2 * ((0 * 0 - 0) + (1 * 1 - 1))) <? prec)%float = true /\
  romberg (fun x => (x * x - x)%float) 0 1 = (-0.125)%float.
Proof.
  split; [reflexivity |].
  rewrite (romberg_returns_after_first_row (fun x => (x * x - x)%float) 0 1);
    reflexivity.
Defined.

Lemma romberg_nan_zero (func : float -> float) (a b : float) :
  func a = nan \/ func b = nan \/
  ((Double.fabs ((b - a) / 2 * (func a + func b)) <? prec)%float = false /\
   func (a + 1 * ((b - a) / 2.0))%float = nan) ->
  romberg func a b = 0%float.
Proof.
  intros H.
  assert (Hrun : exists R h np, run_romberg func a b = Next R h np).
  { rewrite run_romberg_row_1; cbv zeta.
    assert (Htest : (Double.fabs ((b - a) / 2 * (func a + func b)) <? prec)%float
                    = false).
    { destruct H as [H | [H | [H _]]]; [| | exact H]; rewrite H.
      - rewrite nan_add_l, nan_mul_r; reflexivity.
      - rewrite nan_add_r, nan_mul_r; reflexivity. }
    rewrite Htest.
    assert (Hv : (0.5 * ((b - a) / 2 * (func a + func b))
                  + (b - a) / 2.0 * (0 + func (a + 1 * ((b - a) / 2.0))))%float
                 = nan).
    { destruct H as [H | [H | [_ H]]]; rewrite H.
      - rewrite nan_add_l, nan_mul_r, nan_mul_r; apply nan_add_l.
      - rewrite nan_add_r, nan_mul_r, nan_mul_r; apply nan_add_l.
      - rewrite nan_add_r, nan_mul_r; apply nan_add_r. }
    rewrite Hv.
    destruct (run_nan 24 func a 2
                (set (set R_init 0 ((b - a) / 2 * (func a + func b))%float) N nan)
                ((b - a) / 2.0)%float 2)
      as (R' & h' & np' & Hr & _).
    - unfold N; lia.
    - unfold N; lia.
    - apply full_set, full_set, full_init.
    - change (N * (2 - 1)) with N.
      apply get_set_eq; [apply full_set, full_init | unfold N; lia].
    - unfold N; lia.
    - exists R', h', np'; exact Hr. }
  destruct Hrun as (R & h & np & Hrun).
  rewrite romberg_run, Hrun.
  apply (run_romberg_back _ _ _ _ _ _ Hrun).
Qed.

(** X2: NaN at an end or at the midpoint.  If the integrand is NaN at [a]
    or at [b], or at the midpoint while the one-panel estimate is not below
    the tolerance, every row of the table is NaN, no convergence test
    passes, and [romberg] returns [0.0] (the untouched last element of the
    table), not NaN. *)
Theorem romberg_nan_gives_zero (func : float -> float) (a b : float) :
  func a = nan \/ func b = nan \/
  ((Double.fabs ((b - a) / 2 * (func a + func b)) <? prec)%float = false /\
   func (a + 1 * ((b - a) / 2.0))%float = nan) ->
  romberg func a b = 0%float.
Proof. exact (romberg_nan_zero func a b). Qed.

Lemma romberg_nan_gives_zero_witness :
  inverseOfE bounce 1 = nan /\
  romberg (inverseOfE bounce) 0 1 = 0%float.
Proof.
  split; [reflexivity |].
  apply (romberg_nan_gives_zero (inverseOfE bounce) 0 1).
  right; left; reflexivity.
Defined.

(** The redshifts [k] of the points a row with [np] panels adds:
    [1, 3, ..., ] up to [np - 1]. *)
Definition new_points (np : Z) : list Z :=
  List.map (fun j => 2 * Z.of_nat j + 1) (List.seq 0 (Z.to_nat (np / 2))).

Lemma sum_loop_prefix (func : float -> float) (a h : float) (np : Z) (n : nat) :
  0 <= np < 1073741824 -> Z.of_nat n <= np / 2 ->
  N.iter (N.of_nat n) (sum_turn func a h np) (1, 0%float) =
  (1 + 2 * Z.of_nat n,
   List.fold_left (fun s k => (s + func (a + Double.of_int k * h))%float)
     (List.map (fun j => 2 * Z.of_nat j + 1) (List.seq 0 n)) 0%float).
Proof.
  intros Hnp; induction n as [|n IH]; intros Hn; [reflexivity |].
  pose proof (Z.mul_div_le np 2 ltac:(lia)) as Hhalf.
  rewrite Nat2N.inj_succ, N.iter_succ, IH by lia.
  unfold sum_turn.
  rewrite (Int_wrap_in_range (np - 1)) by lia.
  assert ((1 + 2 * Z.of_nat n <=? np - 1) = true) as -> by (apply Z.leb_le; lia).
  rewrite Int_wrap_in_range by lia.
  rewrite seq_S, List.map_app, List.fold_left_app; cbn [List.map List.fold_left].
  f_equal; [lia |].
  replace (2 * Z.of_nat (0 + n) + 1) with (1 + 2 * Z.of_nat n) by lia.
  reflexivity.
Qed.

Lemma sum_loop_idle (func : float -> float) (a h : float) (np : Z) (n : BinNums.N)
    (k : Z) (s : float) :
  0 <= np < 1073741824 -> np - 1 < k ->
  N.iter n (sum_turn func a h np) (k, s) = (k, s).
Proof.
  intros Hnp Hk; induction n as [|n IH] using N.peano_ind; [reflexivity |].
  rewrite N.iter_succ, IH; unfold sum_turn.
  rewrite (Int_wrap_in_range (np - 1)) by lia.
  assert ((k <=? np - 1) = false) as -> by (apply Z.leb_gt; lia).
  reflexivity.
Qed.

(** X3: the points a row evaluates.  For a row with [np] panels the
    summation loop adds up the integrand at [a + k*h] for the odd
    [k = 1, 3, ..., np - 1] (or [np - 2] for an odd [np]), in increasing
    order, starting from [0.0], and at no other point: the points of the
    earlier rows (even [k]) are not evaluated again. *)
Theorem sum_loop_new_points (func : float -> float) (a h : float) (np : Z) :
  0 <= np < 1073741824 ->
  sum_loop func a h np =
  (1 + 2 * (np / 2),
   List.fold_left (fun s k => (s + func (a + Double.of_int k * h))%float)
     (new_points np) 0%float).
Proof.
  intros Hnp; unfold sum_loop, new_points.
  assert (Hdiv : 0 <= np / 2 <= np) by (split; [apply Z.div_pos | apply Z.div_le_upper_bound]; lia).
  replace (Z.to_N np)
    with (N.of_nat (Z.to_nat (np / 2)) + Z.to_N (np - np / 2))%N by lia.
  rewrite N.add_comm, N.iter_add, sum_loop_prefix by lia.
  rewrite sum_loop_idle.
  - f_equal; lia.
  - exact Hnp.
  - pose proof (Z.div_mod np 2 ltac:(lia)).
    pose proof (Z.mod_pos_bound np 2 ltac:(lia)).
    lia.
Qed.

Lemma sum_loop_new_points_witness :
  0 <= 8 < 1073741824 /\
  new_points 8 = [1; 3; 5; 7] /\
  forall func a h,
    snd (sum_loop func a h 8) =
    (0 + func (a + 1 * h) + func (a + 3 * h) + func (a + 5 * h)
     + func (a + 7 * h))%float.
Proof.
  split; [lia |]; split; [reflexivity |].
  intros func a h.
  rewrite (sum_loop_new_points func a h 8) by lia; reflexivity.
Defined.

End RombergFirstRow.

(** ** The state machine: recomputation from the parameters and the redshift *)

Ltac members_E :=
  cbn [negb set_H0 set_q0 set_OmegaM set_OmegaL set_Omegak set_dH set_z set_dA
       set_dL set_dC set_dM set_VC set_tL set_age set_scale set_rhoCrit
       H0_ q0_ OmegaM_ OmegaL_ Omegak_ dH_ z_ dA_ dL_ dC_ dM_ VC_ tL_ age_
       scale_ rhoCrit_ E inverseOfE lookbackIntegrand].

Section Recomputation.

Context {libm : Libm}.

(** Every way of producing a state is [init], possibly followed by calls
    of [setRedshift]. *)
Lemma reachable_induction (P : Cosmo -> Prop) :
  (forall raw h m l, P (init raw h m l)) ->
  (forall s z, P s -> P (setRedshift s z)) ->
  forall s, reachable s -> P s.
Proof.
  intros Hinit Hset s H.
  induction H as [raw | raw h m l | raw a Ha IHa | this a Hthis IHthis Ha IHa
                 | this h m l Hthis IH | this z Hthis IH | this h m l Hthis IH].
  - exact (Hinit raw _ _ _).
  - exact (Hinit raw h m l).
  - unfold Cosmo_copy; rewrite clone_unfold.
    exact (Hset _ _ (Hinit raw _ _ _)).
  - rewrite clone_unfold; exact (Hset _ _ (Hinit this _ _ _)).
  - rewrite setCosmology_init; exact (Hinit this h m l).
  - exact (Hset this z IH).
  - exact (Hinit this h m l).
Qed.

(** [setDistances] reads the parameters, [dH_] and the redshift, and
    nothing else. *)
Lemma setDistances_reads (s s' : Cosmo) :
  H0_ s = H0_ s' -> q0_ s = q0_ s' -> OmegaM_ s = OmegaM_ s' ->
  OmegaL_ s = OmegaL_ s' -> Omegak_ s = Omegak_ s' -> dH_ s = dH_ s' ->
  age_ s = age_ s' -> z_ s = z_ s' ->
  setDistances s = setDistances s'.
Proof.
  destruct s, s'; members; intros; subst.
  unfold setDistances; members_E; split_ifs; reflexivity.
Qed.

Lemma set_z_members (z : float) (o : Cosmo) :
  H0_ (set_z z o) = H0_ o /\ q0_ (set_z z o) = q0_ o /\
  OmegaM_ (set_z z o) = OmegaM_ o /\ OmegaL_ (set_z z o) = OmegaL_ o /\
  Omegak_ (set_z z o) = Omegak_ o /\ dH_ (set_z z o) = dH_ o /\
  age_ (set_z z o) = age_ o /\ z_ (set_z z o) = z.
Proof. repeat split. Qed.

Lemma setRedshift_twice (s : Cosmo) (z1 z2 : float) :
  setRedshift (setRedshift s z1) z2 = setRedshift s z2.
Proof.
  unfold setRedshift at 1 3.
  destruct (setRedshift_frame s z1) as (H1 & H2 & H3 & H4 & H5 & H6 & H7 & _).
  destruct (set_z_members z2 (setRedshift s z1))
    as (E1 & E2 & E3 & E4 & E5 & E6 & E7 & E8).
  destruct (set_z_members z2 s) as (F1 & F2 & F3 & F4 & F5 & F6 & F7 & F8).
  apply setDistances_reads; congruence.
Qed.

(** X4: the last redshift wins.  [setRedshift] recomputes every member it
    writes from the parameters and the new redshift alone: a call replaces
    whatever an earlier call stored, and repeating a call changes
    nothing. *)
Theorem setRedshift_last_wins (s : Cosmo) (z1 z2 : float) :
  setRedshift (setRedshift s z1) z2 = setRedshift s z2 /\
  setRedshift (setRedshift s z2) z2 = setRedshift s z2.
Proof. split; apply setRedshift_twice. Qed.

Lemma set_rhoCrit_same (o : Cosmo) : set_rhoCrit (rhoCrit_ o) o = o.
Proof. destruct o; reflexivity. Qed.

Lemma setRedshift_of_unset (o : Cosmo) :
  z_ o = 0%float -> dC_ o = 0%float -> dM_ o = 0%float -> dA_ o = 0%float ->
  dL_ o = 0%float -> VC_ o = 0%float -> tL_ o = 0%float -> scale_ o = 0%float ->
  setRedshift o (z_ o) =
  set_rhoCrit (critical_density (H0_ o) (OmegaM_ o) (OmegaL_ o) (z_ o)) o.
Proof.
  destruct o; members; intros; subst.
  unfold setRedshift, setDistances, critical_density; members.
  change (Double.truthy 0) with false; members; reflexivity.
Qed.

(** X5: no stale member.  In every state the public interface can produce,
    the members computed from the redshift are those [setDistances]
    computes from the current parameters and the current redshift:
    calling [setRedshift] with the redshift the object already has changes
    nothing, except that [rhoCrit_], which the constructors and
    [setCosmology] leave at [0], gets its value. *)
Theorem reachable_state_is_recomputed (s : Cosmo) :
  reachable s ->
  setRedshift s (z_ s) =
  set_rhoCrit (critical_density (H0_ s) (OmegaM_ s) (OmegaL_ s) (z_ s)) s.
Proof.
  revert s; apply reachable_induction.
  - intros raw h m l.
    destruct (init_zeroes raw h m l) as (H1 & H2 & H3 & H4 & H5 & H6 & H7 & H8 & _).
    apply setRedshift_of_unset; assumption.
  - intros s z _.
    destruct (setRedshift_frame s z) as (H1 & H2 & H3 & _ & _ & _ & _ & H8).
    rewrite H8, setRedshift_twice, H1, H2, H3.
    rewrite <- (setRedshift_rhoCrit s z); symmetry; apply set_rhoCrit_same.
Qed.

End Recomputation.

(** ** Members derived from the parameters and from the redshift *)

Section DerivedMembers.

Context {libm : Libm}.

Lemma setDistances_tL_scale (this : Cosmo) :
  let s := setDistances this in
  tL_ s =
    (if Double.truthy (z_ this)
     then (Romberg.romberg (lookbackIntegrand this) 0 (z_ this)
           / H0_ this * kmPerMpc)%float
     else 0%float) /\
  scale_ s = (dA_ s / 648 * PI)%float.
Proof.
  destruct this; cbv zeta; unfold setDistances; members_E.
  match goal with |- context [Double.truthy ?z] => destruct (Double.truthy z) end;
    members_E; [| split; reflexivity].
  split_ifs; split; reflexivity.
Qed.

Lemma E_setRedshift (s : Cosmo) (z x : float) : E (setRedshift s z) x = E s x.
Proof.
  destruct (setRedshift_frame s z) as (_ & H2 & H3 & H4 & _).
  apply E_params; assumption.
Qed.

Lemma integrands_setRedshift (s : Cosmo) (z : float) :
  (forall x, ageIntegrand (setRedshift s z) x = ageIntegrand s x) /\
  (forall x, inverseOfE (setRedshift s z) x = inverseOfE s x) /\
  (forall x, lookbackIntegrand (setRedshift s z) x = lookbackIntegrand s x).
Proof.
  unfold ageIntegrand, inverseOfE, lookbackIntegrand.
  repeat split; intros x; rewrite E_setRedshift; reflexivity.
Qed.

(** X6: members derived from the parameters.  In every state the public
    interface can produce, [q0_] is [0.5 * OmegaM_ - OmegaL_], [dH_] is
    [c / H0_], and [age_] is the age integral for the current parameters;
    [setRedshift] never leaves them out of step with the parameters. *)
Theorem derived_parameters_invariant (s : Cosmo) :
  reachable s ->
  q0_ s = (0.5 * OmegaM_ s - OmegaL_ s)%float /\
  dH_ s = (c / H0_ s)%float /\
  age_ s =
    (Romberg.romberg (ageIntegrand s) 0.0 (1.0 - Double.epsilon) / H0_ s
     * kmPerMpc)%float.
Proof.
  revert s; apply reachable_induction.
  - intros raw h m l.
    destruct (init_derived raw h m l) as (-> & ->).
    rewrite init_age.
    destruct (init_params raw h m l) as (-> & -> & ->).
    repeat split.
  - intros s z (Hq & Hd & Ha).
    destruct (setRedshift_frame s z) as (-> & -> & -> & _ & -> & -> & -> & _).
    split; [exact Hq |]; split; [exact Hd |].
    rewrite Ha.
    rewrite (romberg_ext _ _ (proj1 (integrands_setRedshift s z))).
    reflexivity.
Qed.

Lemma setRedshift_tL_scale (s : Cosmo) (z : float) :
  tL_ (setRedshift s z) =
    (if Double.truthy z
     then (Romberg.romberg (lookbackIntegrand s) 0 z / H0_ s * kmPerMpc)%float
     else 0%float) /\
  scale_ (setRedshift s z) = (dA_ (setRedshift s z) / 648 * PI)%float.
Proof.
  unfold setRedshift.
  destruct (setDistances_tL_scale (set_z z s)) as [H1 H2].
  split; [| exact H2].
  rewrite H1; members.
  destruct (Double.truthy z); [| reflexivity].
  apply (f_equal (fun v => (v / H0_ s * kmPerMpc)%float)), romberg_ext.
  intros x; reflexivity.
Qed.

(** X7: members derived from the redshift.  In every state the public
    interface can produce, [dC_] is [dH_ * romberg(inverseOfE, 0, z_)] and
    [tL_] is [romberg(lookbackIntegrand, 0, z_) / H0_ * kmPerMpc], both for
    the current parameters and redshift (and [0] when the redshift is
    [0]), and [scale_] is [dA_ / 648 * PI]. *)
Theorem derived_distances_invariant (s : Cosmo) :
  reachable s ->
  dC_ s =
    (if Double.truthy (z_ s)
     then (dH_ s * Romberg.romberg (inverseOfE s) 0 (z_ s))%float
     else 0%float) /\
  tL_ s =
    (if Double.truthy (z_ s)
     then (Romberg.romberg (lookbackIntegrand s) 0 (z_ s) / H0_ s
           * kmPerMpc)%float
     else 0%float) /\
  scale_ s = (dA_ s / 648 * PI)%float.
Proof.
  revert s; apply reachable_induction.
  - intros raw h m l.
    destruct (init_zeroes raw h m l) as (-> & -> & _ & -> & _ & _ & -> & -> & _).
    repeat split.
  - intros s z _.
    destruct (setRedshift_tL_scale s z) as [HtL Hscale].
    rewrite setRedshift_dC, HtL.
    destruct (setRedshift_frame s z) as (-> & _ & _ & _ & _ & -> & _ & ->).
    destruct (integrands_setRedshift s z) as (_ & Hinv & Hlook).
    rewrite (romberg_ext _ _ Hinv), (romberg_ext _ _ Hlook).
    split; [reflexivity |]; split; [reflexivity | exact Hscale].
Qed.

(** X8: construction does not read the storage.  [init] assigns all sixteen
    members, so a constructed object does not depend on what its storage
    held, and [setCosmology] and [getCosmologyFromUser] leave exactly the
    object the constructor builds from the same parameters. *)
Theorem construction_ignores_storage (raw raw' s a : Cosmo) (h m l : float) :
  Cosmo_params raw h m l = Cosmo_params raw' h m l /\
  Cosmo_default raw = Cosmo_default raw' /\
  Cosmo_copy raw a = Cosmo_copy raw' a /\
  setCosmology s h m l = Cosmo_params raw h m l /\
  getCosmologyFromUser s h m l = Cosmo_params raw h m l.
Proof.
  split; [exact (init_raw raw raw' h m l) |].
  split; [exact (init_raw raw raw' 67.04 0.3183 0.6817) |].
  split; [exact (eq_trans (clone_rebuild raw raw' a)
                          (eq_sym (clone_rebuild raw' raw' a))) |].
  split; [exact (eq_trans (setCosmology_init s h m l) (init_raw s raw h m l)) |].
  exact (init_raw s raw h m l).
Qed.

(** X9: a redshift at which [E] is NaN.  When [E(z)] is NaN for the
    parameters of the object (the square root of a negative number, or
    [0 * infinity]), both integrands are NaN at the upper end, and
    [setRedshift(z)] stores [dC = dH * 0] and [tL = 0 / H0 * kmPerMpc],
    not NaN. *)
Theorem setRedshift_where_E_is_nan (s : Cosmo) (z : float) :
  Double.truthy z = true -> E s z = nan ->
  dC_ (setRedshift s z) = (dH_ s * 0)%float /\
  tL_ (setRedshift s z) = (0 / H0_ s * kmPerMpc)%float.
Proof.
  intros Hz HE.
  destruct (setRedshift_tL_scale s z) as [-> _].
  rewrite setRedshift_dC, Hz.
  rewrite (romberg_nan_zero (inverseOfE s) 0 z),
    (romberg_nan_zero (lookbackIntegrand s) 0 z).
  - split; reflexivity.
  - right; left; unfold lookbackIntegrand; rewrite HE; apply nan_div_r.
  - right; left; unfold inverseOfE; rewrite HE; apply nan_div_r.
Qed.

End DerivedMembers.

Section DerivedMembersExamples.

#[local] Existing Instance libm_uncalled.

Lemma derived_parameters_invariant_witness :
  reachable sample_state /\
  q0_ sample_state = (0.5 * OmegaM_ sample_state - OmegaL_ sample_state)%float /\
  dH_ sample_state = (c / H0_ sample_state)%float.
Proof.
  pose proof (derived_parameters_invariant sample_state sample_state_reachable)
    as (H1 & H2 & _).
  split; [exact sample_state_reachable |]; split; [exact H1 | exact H2].
Defined.

Lemma derived_distances_invariant_witness :
  reachable sample_state /\
  scale_ sample_state = (dA_ sample_state / 648 * PI)%float.
Proof.
  pose proof (derived_distances_invariant sample_state sample_state_reachable)
    as (_ & _ & H).
  split; [exact sample_state_reachable | exact H].
Defined.

Lemma reachable_state_is_recomputed_witness :
  reachable sample_state /\
  setRedshift sample_state (z_ sample_state) =
  set_rhoCrit (critical_density (H0_ sample_state) (OmegaM_ sample_state)
                 (OmegaL_ sample_state) (z_ sample_state)) sample_state.
Proof.
  split; [exact sample_state_reachable |].
  exact (reachable_state_is_recomputed sample_state sample_state_reachable).
Defined.

(** The default (flat) parameters at an infinite redshift: [E] is
    [sqrt(inf + 0 * inf + OmegaL)]. *)
Lemma E_default_at_infinity : E (Cosmo_default raw0) infinity = nan.
Proof.
  unfold Cosmo_default.
  rewrite (E_params (init raw0 67.04 0.3183 0.6817)
             (with_params 0.3183 0.6817 (curvature 0.3183 0.6817))).
  - reflexivity.
  - destruct (init_params raw0 67.04 0.3183 0.6817) as (_ & -> & _); reflexivity.
  - rewrite init_Omegak; reflexivity.
  - destruct (init_params raw0 67.04 0.3183 0.6817) as (_ & _ & ->); reflexivity.
Qed.

Lemma setRedshift_where_E_is_nan_witness :
  Double.truthy infinity = true /\
  E (Cosmo_default raw0) infinity = nan /\
  dC_ (setRedshift (Cosmo_default raw0) infinity)
  = (dH_ (Cosmo_default raw0) * 0)%float.
Proof.
  split; [reflexivity |]; split; [exact E_default_at_infinity |].
  exact (proj1 (setRedshift_where_E_is_nan (Cosmo_default raw0) infinity
                  eq_refl E_default_at_infinity)).
Defined.

End DerivedMembersExamples.

(** ** Which tokens [isNumeric] accepts *)

(** Signed decimal numerals: an optional [-], digits, an optional [.],
    digits, with at least one digit in all. *)
Fixpoint split_point (l : list ascii) : list ascii * option (list ascii) :=
  match l with
  | [] => ([], None)
  | ch :: l' =>
      if Ascii.eqb ch "."
      then ([], Some l')
      else let '(ip, fp) := split_point l' in (ch :: ip, fp)
  end.

Definition strip_sign (l : list ascii) : list ascii :=
  match l with
  | ch :: l' => if Ascii.eqb ch "-" then l' else l
  | [] => []
  end.

Definition digits_and_point (l : list ascii) : bool :=
  let '(ip, fp) := split_point l in
  forallb is_digit ip && forallb is_digit (default [] fp).

Definition decimal_numeral (text : string) : bool :=
  let l := strip_sign (list_ascii_of_string text) in
  digits_and_point l && existsb is_digit l.

Definition no_minus (l : list ascii) : bool :=
  negb (existsb (fun x => Ascii.eqb x "-") l).

Section IsNumericAccepts.

Lemma char_classes (ch : ascii) :
  (Ascii.eqb ch "." = true /\ allowed_char ch = true /\ is_digit ch = false /\
   Ascii.eqb ch "-" = false) \/
  (Ascii.eqb ch "-" = true /\ allowed_char ch = true /\ is_digit ch = false /\
   Ascii.eqb ch "." = false) \/
  (is_digit ch = true /\ allowed_char ch = true /\ Ascii.eqb ch "." = false /\
   Ascii.eqb ch "-" = false) \/
  (allowed_char ch = false /\ is_digit ch = false /\ Ascii.eqb ch "." = false /\
   Ascii.eqb ch "-" = false).
Proof.
  destruct (Ascii.eqb ch ".") eqn:Hp;
    [apply Ascii.eqb_eq in Hp; subst; left; repeat split |].
  destruct (Ascii.eqb ch "-") eqn:Hm;
    [apply Ascii.eqb_eq in Hm; subst; right; left; repeat split |].
  right; right.
  unfold allowed_char, is_digit; cbn [list_ascii_of_string existsb].
  rewrite Hp, Hm; cbn [orb].
  destruct (Ascii.eqb ch "0" || (Ascii.eqb ch "1" || (Ascii.eqb ch "2"
            || (Ascii.eqb ch "3" || (Ascii.eqb ch "4" || (Ascii.eqb ch "5"
            || (Ascii.eqb ch "6" || (Ascii.eqb ch "7" || (Ascii.eqb ch "8"
            || (Ascii.eqb ch "9" || false)))))))))) eqn:Hd.
  - left; repeat split.
  - right; repeat split.
Qed.

Ltac bool_cases :=
  repeat match goal with
         | |- context [forallb ?f ?l] => destruct (forallb f l)
         | |- context [existsb ?f ?l] => destruct (existsb f l)
         | |- context [no_minus ?l] => destruct (no_minus l)
         | |- context [count_char ?c ?l] => destruct (count_char c l) as [|[|?]]
         end;
  try reflexivity.

Lemma no_minus_cons (ch : ascii) (l : list ascii) :
  no_minus (ch :: l) = negb (Ascii.eqb ch "-") && no_minus l.
Proof. unfold no_minus; cbn [existsb]; destruct (Ascii.eqb ch "-"); reflexivity. Qed.

Ltac char_case ch :=
  let H1 := fresh "H" in
  let H2 := fresh "H" in
  let H3 := fresh "H" in
  let H4 := fresh "H" in
  destruct (char_classes ch) as [(H1 & H2 & H3 & H4) | [(H1 & H2 & H3 & H4)
                                | [(H1 & H2 & H3 & H4) | (H1 & H2 & H3 & H4)]]];
  rewrite ?H1, ?H2, ?H3, ?H4; cbn [andb orb negb].

(** Digits only: allowed characters, no minus sign, no decimal point. *)
Lemma all_digits (l : list ascii) :
  forallb is_digit l =
  forallb allowed_char l && no_minus l && (count_char "." l =? 0)%nat.
Proof.
  induction l as [|ch l IH]; [reflexivity |].
  rewrite count_char_cons, no_minus_cons; cbn [forallb].
  char_case ch.
  - bool_cases.
  - bool_cases.
  - exact IH.
  - reflexivity.
Qed.

(** Digits around at most one decimal point: allowed characters, no minus
    sign, at most one decimal point. *)
Lemma digits_and_point_shape (l : list ascii) :
  digits_and_point l =
  forallb allowed_char l && no_minus l && (count_char "." l <=? 1)%nat.
Proof.
  unfold digits_and_point; induction l as [|ch l IH]; [reflexivity |].
  rewrite count_char_cons, no_minus_cons; cbn [forallb split_point].
  char_case ch.
  - cbn [forallb default from_option id andb]; rewrite all_digits.
    destruct (count_char "." l) as [|[|n]]; reflexivity.
  - destruct (split_point l); cbn [forallb]; rewrite H1; bool_cases.
  - destruct (split_point l); cbn [forallb]; rewrite H; exact IH.
  - destruct (split_point l); cbn [forallb]; rewrite H0; reflexivity.
Qed.

Lemma accepted_shape_strip_sign (text : string) :
  accepted_shape text =
  digits_and_point (strip_sign (list_ascii_of_string text)).
Proof.
  unfold accepted_shape.
  destruct (list_ascii_of_string text) as [|ch l]; [reflexivity |].
  cbn [strip_sign List.tl]; fold (no_minus l).
  destruct (Ascii.eqb ch "-") eqn:Hm.
  - apply Ascii.eqb_eq in Hm; subst ch.
    rewrite digits_and_point_shape, count_char_cons; reflexivity.
  - rewrite digits_and_point_shape, no_minus_cons, Hm; reflexivity.
Qed.

Lemma has_digit_strip_sign (text : string) :
  has_digit text = existsb is_digit (strip_sign (list_ascii_of_string text)).
Proof.
  unfold has_digit.
  destruct (list_ascii_of_string text) as [|ch l]; [reflexivity |].
  cbn [strip_sign existsb].
  destruct (Ascii.eqb ch "-") eqn:Hm; [| reflexivity].
  apply Ascii.eqb_eq in Hm; subst; reflexivity.
Qed.

(** X10: what [isNumeric] accepts.  For every token shorter than [2^31]
    characters, [isNumeric] returns [1] exactly when the token is made of
    the characters [-0123456789.] only, has no [-] after its first
    character and has at most one [.]; otherwise it returns [0].  In
    particular a token with any other character (an exponent, a plus sign,
    a blank) is rejected. *)
Theorem isNumeric_accepts_exactly (text : string) :
  Z.of_nat (String.length text) < 2147483648 ->
  (isNumeric text = 1 <-> accepted_shape text = true) /\
  (isNumeric text = 0 <-> accepted_shape text = false) /\
  (forallb allowed_char (list_ascii_of_string text) = false ->
   isNumeric text = 0).
Proof.
  intros Hlen; rewrite (isNumeric_shape text Hlen).
  split; [| split].
  - destruct (accepted_shape text); split; intros H; try reflexivity;
      discriminate.
  - destruct (accepted_shape text); split; intros H; try reflexivity;
      discriminate.
  - unfold accepted_shape; intros ->; reflexivity.
Qed.

Lemma isNumeric_accepts_exactly_witness :
  Z.of_nat (String.length "-0.3183") < 2147483648 /\
  isNumeric "-0.3183" = 1 /\ accepted_shape "-0.3183" = true.
Proof.
  split; [reflexivity |]; split; [reflexivity |].
  apply (isNumeric_accepts_exactly "-0.3183"); reflexivity.
Defined.

(** X11: decimal numerals.  Among the tokens that contain a digit,
    [isNumeric] accepts exactly the signed decimal numerals (an optional
    leading [-], digits, an optional [.], digits): every such numeral is
    accepted, and every accepted token with a digit is one. *)
Theorem isNumeric_decimal_numerals (text : string) :
  Z.of_nat (String.length text) < 2147483648 ->
  decimal_numeral text = true <->
  isNumeric text = 1 /\ has_digit text = true.
Proof.
  intros Hlen; rewrite (isNumeric_shape text Hlen).
  unfold decimal_numeral.
  rewrite <- accepted_shape_strip_sign, <- has_digit_strip_sign.
  destruct (accepted_shape text), (has_digit text); cbn [andb]; split;
    try (intros [? ?]); try intros ?; try split; try reflexivity;
    try discriminate.
Qed.

Lemma isNumeric_decimal_numerals_witness :
  Z.of_nat (String.length "-12.5") < 2147483648 /\
  decimal_numeral "-12.5" = true /\ isNumeric "-12.5" = 1.
Proof.
  split; [reflexivity |]; split; [reflexivity |].
  apply (isNumeric_decimal_numerals "-12.5"); reflexivity.
Defined.

End IsNumericAccepts.

(** * Prompting for the parameters *)

(** [atof], from the C library. *)
Class Libc : Type := { atof : string -> float }.

(** What is written to [cout] and [cerr], without the layout of the
    numbers. *)
Inductive event : Type :=
  | Prompted (description : string) (defaultVal : float)
  | NotAValidNumber
  | HubbleMustBePositive
  | OmegaMatterMustBeNonNegative.

(** What a loop that reads from [cin] comes to. *)
Inductive outcome (A : Type) : Type :=
  | Done (a : A)
  | Forever
  | NoFuel.
Arguments Done {A} a.
Arguments Forever {A}.
Arguments NoFuel {A}.

Section Prompting.

Context {libc : Libc}.

(** [double promptForParam(const char* description, const double defaultVal)].
    [cin] is the list of the lines still to be read; at the end of the
    input [getline] fails and leaves [temp] empty. *)
Fixpoint promptForParam (description : string) (defaultVal : float)
    (cin : list string) : float * list string * list event :=
  match cin with
  | [] => (defaultVal, [], [Prompted description defaultVal])
  | temp :: cin' =>
      if negb (String.length temp =? 0)%nat then
        if negb (isNumeric temp =? 0)
        then (atof temp, cin', [Prompted description defaultVal])
        else
          let '(v, rest, out) := promptForParam description defaultVal cin' in
          (v, rest, Prompted description defaultVal :: NotAValidNumber :: out)
      else (defaultVal, cin', [Prompted description defaultVal])
  end.

(** [while (rejected(v = promptForParam(description, defaultVal))) cerr << complaint].
    At the end of the input every call returns [defaultVal]: if that value
    is rejected the loop never ends. *)
Fixpoint prompt_while (fuel : nat) (rejected : float -> bool) (complaint : event)
    (description : string) (defaultVal : float) (cin : list string)
    : outcome (float * list string * list event) :=
  match fuel with
  | O => NoFuel
  | S fuel' =>
      let '(v, rest, out) := promptForParam description defaultVal cin in
      if rejected v then
        match cin with
        | [] => Forever
        | _ :: _ =>
            match prompt_while fuel' rejected complaint description defaultVal rest with
            | Done (v', rest', out') => Done (v', rest', out ++ complaint :: out')
            | Forever => Forever
            | NoFuel => NoFuel
            end
        end
      else Done (v, rest, out)
  end.

(** [void Cosmo::getCosmologyFromUser()], reading [cin]. *)
Definition getCosmologyFromUser_cin (this : Cosmo) (cin : list string)
    : outcome (Cosmo * list string * list event) :=
  match prompt_while (S (List.length cin)) (fun v => (v <=? 0)%float)
          HubbleMustBePositive "Hubble constant" (H0_ this) cin with
  | Done (H0_tmp, cin, out1) =>
      match prompt_while (S (List.length cin)) (fun v => (v <? 0)%float)
              OmegaMatterMustBeNonNegative "Omega matter" (OmegaM_ this) cin with
      | Done (OmegaM_tmp, cin, out2) =>
          let '(OmegaL_tmp, cin, out3) :=
            promptForParam "Omega lambda" (OmegaL_ this) cin in
          Done (getCosmologyFromUser this H0_tmp OmegaM_tmp OmegaL_tmp, cin,
                out1 ++ out2 ++ out3)
      | Forever => Forever
      | NoFuel => NoFuel
      end
  | Forever => Forever
  | NoFuel => NoFuel
  end.

(** ** What [promptForParam] returns *)

(** A line [promptForParam] complains about and skips. *)
Definition skipped (temp : string) : Prop :=
  String.length temp <> 0%nat /\ isNumeric temp = 0.

(** X12: what [promptForParam] returns.  It skips the lines that are not
    empty and that [isNumeric] rejects, with one complaint for each, and
    stops at the first other line: at the end of the input or on an empty
    line it returns [defaultVal] (an empty line ends the prompt even when
    numbers follow), and on a line [isNumeric] accepts it returns [atof] of
    that line.  No line [isNumeric] rejects ever reaches [atof], and the
    lines after the one it stops at are left in [cin]. *)
Theorem promptForParam_returns (description : string) (defaultVal : float)
    (cin : list string) :
  exists skip : list string,
    Forall skipped skip /\
    List.length (List.filter
                   (fun e => match e with NotAValidNumber => true | _ => false end)
                   (promptForParam description defaultVal cin).2)
    = List.length skip /\
    ((cin = skip /\
      promptForParam description defaultVal cin
      = (defaultVal, [], (promptForParam description defaultVal cin).2)) \/
     (exists temp rest,
        cin = skip ++ temp :: rest /\
        (promptForParam description defaultVal cin).1.2 = rest /\
        ((String.length temp = 0%nat /\
          (promptForParam description defaultVal cin).1.1 = defaultVal) \/
         (String.length temp <> 0%nat /\ isNumeric temp <> 0 /\
          (promptForParam description defaultVal cin).1.1 = atof temp)))).
Proof.
  induction cin as [|temp cin IH].
  - exists []; split; [constructor |]; split; [reflexivity |].
    left; split; reflexivity.
  - cbn [promptForParam].
    destruct (String.length temp =? 0)%nat eqn:Hlen; cbn [negb].
    + apply Nat.eqb_eq in Hlen.
      exists []; split; [constructor |]; split; [reflexivity |].
      right; exists temp, cin; split; [reflexivity |]; split; [reflexivity |].
      left; split; [exact Hlen | reflexivity].
    + apply Nat.eqb_neq in Hlen.
      destruct (isNumeric temp =? 0) eqn:Hnum; cbn [negb].
      * apply Z.eqb_eq in Hnum.
        destruct IH as (skip & Hskip & Hcount & Hcases).
        destruct (promptForParam description defaultVal cin) as [[v rest] out].
        exists (temp :: skip); split; [constructor; [split |]; assumption |].
        split; [cbn [snd List.filter List.length] in *; rewrite Hcount; reflexivity |].
        destruct Hcases as [[-> Heq] | (t & r & -> & Hrest & Hv)].
        -- left; split; [reflexivity |].
           injection Heq as -> ->; reflexivity.
        -- right; exists t, r; split; [reflexivity |].
           split; [exact Hrest | exact Hv].
      * apply Z.eqb_neq in Hnum.
        exists []; split; [constructor |]; split; [reflexivity |].
        right; exists temp, cin; split; [reflexivity |]; split; [reflexivity |].
        right; split; [exact Hlen |]; split; [exact Hnum | reflexivity].
Qed.

(** ** The prompt loops of [getCosmologyFromUser] *)

Lemma promptForParam_consumes (description : string) (defaultVal : float)
    (cin : list string) :
  (List.length (promptForParam description defaultVal cin).1.2
   <= List.length cin)%nat /\
  (cin <> [] ->
   (List.length (promptForParam description defaultVal cin).1.2
    < List.length cin)%nat).
Proof.
  induction cin as [|temp cin IH]; [split; [reflexivity | congruence] |].
  cbn [promptForParam].
  destruct (negb (String.length temp =? 0)%nat); [| cbn; split; intros; lia].
  destruct (negb (isNumeric temp =? 0)); [cbn; split; intros; lia |].
  destruct (promptForParam description defaultVal cin) as [[v rest] out].
  cbn in *; split; intros; lia.
Qed.

Lemma promptForParam_at_end (description : string) (defaultVal : float) :
  promptForParam description defaultVal []
  = (defaultVal, [], [Prompted description defaultVal]).
Proof. reflexivity. Qed.

Section Loop.

Variables (rejected : float -> bool) (complaint : event) (description : string)
  (defaultVal : float).

Lemma prompt_while_done (fuel : nat) (cin : list string) (v : float)
    (rest : list string) (out : list event) :
  prompt_while fuel rejected complaint description defaultVal cin
  = Done (v, rest, out) ->
  rejected v = false /\ (List.length rest <= List.length cin)%nat.
Proof.
  revert cin v rest out; induction fuel as [|fuel IH]; intros cin v rest out;
    [discriminate |].
  cbn [prompt_while].
  pose proof (promptForParam_consumes description defaultVal cin) as [Hle _].
  destruct (promptForParam description defaultVal cin) as [[v0 rest0] out0].
  cbn [fst snd] in Hle.
  destruct (rejected v0) eqn:Hrej.
  - destruct cin as [|temp cin]; [discriminate |].
    destruct (prompt_while fuel rejected complaint description defaultVal rest0)
      as [[[v1 rest1] out1] | |] eqn:Hloop; try discriminate.
    intros [= <- <- <-].
    destruct (IH _ _ _ _ Hloop) as [H1 H2]; split; [exact H1 | lia].
  - intros [= <- <- <-]; split; [exact Hrej | exact Hle].
Qed.

(** The loop ends, or goes on for ever, before the fuel runs out. *)
Lemma prompt_while_fuel (fuel : nat) (cin : list string) :
  (List.length cin < fuel)%nat ->
  prompt_while fuel rejected complaint description defaultVal cin <> NoFuel.
Proof.
  revert cin; induction fuel as [|fuel IH]; intros cin Hfuel; [lia |].
  cbn [prompt_while].
  pose proof (promptForParam_consumes description defaultVal cin) as [_ Hlt].
  destruct (promptForParam description defaultVal cin) as [[v0 rest0] out0].
  cbn [fst snd] in Hlt.
  destruct (rejected v0); [| discriminate].
  destruct cin as [|temp cin]; [discriminate |].
  specialize (Hlt ltac:(discriminate)).
  specialize (IH rest0 ltac:(cbn [List.length] in *; lia)).
  destruct (prompt_while fuel rejected complaint description defaultVal rest0)
    as [[[v1 rest1] out1] | |]; [discriminate | discriminate | contradiction].
Qed.

(** With a default that passes the test the loop ends. *)
Lemma prompt_while_ends (fuel : nat) (cin : list string) :
  rejected defaultVal = false -> (List.length cin < fuel)%nat ->
  exists r, prompt_while fuel rejected complaint description defaultVal cin = Done r.
Proof.
  intros Hdef; revert cin; induction fuel as [|fuel IH]; intros cin Hfuel; [lia |].
  cbn [prompt_while].
  pose proof (promptForParam_consumes description defaultVal cin) as [_ Hlt].
  destruct cin as [|temp cin].
  - rewrite promptForParam_at_end, Hdef; eauto.
  - destruct (promptForParam description defaultVal (temp :: cin))
      as [[v0 rest0] out0].
    cbn [fst snd] in Hlt; specialize (Hlt ltac:(discriminate)).
    destruct (rejected v0); [| eauto].
    destruct (IH rest0 ltac:(cbn [List.length] in *; lia)) as [[[v1 rest1] out1] ->].
    eauto.
Qed.

(** At the end of the input, with a default that fails the test, it does
    not. *)
Lemma prompt_while_at_end (fuel : nat) :
  rejected defaultVal = true ->
  prompt_while (S fuel) rejected complaint description defaultVal [] = Forever.
Proof. intros Hdef; cbn [prompt_while promptForParam]; rewrite Hdef; reflexivity. Qed.

End Loop.

(** X13: the parameters the prompts let through.  Whenever
    [getCosmologyFromUser] returns, the object it leaves was initialised
    with a Hubble constant that is not [<= 0] and a matter density that is
    not [< 0], its redshift and the members computed from it are [0], and
    what is left of the input is what the three prompts did not read. *)
Theorem getCosmologyFromUser_validates (this s : Cosmo) (cin rest : list string)
    (out : list event) :
  getCosmologyFromUser_cin this cin = Done (s, rest, out) ->
  (H0_ s <=? 0)%float = false /\ (OmegaM_ s <? 0)%float = false /\
  Omegak_ s = curvature (OmegaM_ s) (OmegaL_ s) /\
  z_ s = 0%float /\ dC_ s = 0%float /\ dA_ s = 0%float /\ dL_ s = 0%float /\
  (List.length rest <= List.length cin)%nat.
Proof.
  unfold getCosmologyFromUser_cin.
  destruct (prompt_while _ _ HubbleMustBePositive _ _ cin)
    as [[[h cin1] out1] | |] eqn:H1; try discriminate.
  destruct (prompt_while _ _ OmegaMatterMustBeNonNegative _ _ cin1)
    as [[[m cin2] out2] | |] eqn:H2; try discriminate.
  pose proof (promptForParam_consumes "Omega lambda" (OmegaL_ this) cin2) as [H3 _].
  destruct (promptForParam "Omega lambda" (OmegaL_ this) cin2) as [[l cin3] out3].
  cbn [fst snd] in H3.
  intros [= <- <- <-].
  apply prompt_while_done in H1, H2.
  destruct H1 as [Hh Hc1], H2 as [Hm Hc2].
  unfold getCosmologyFromUser.
  rewrite init_Omegak.
  destruct (init_params this h m l) as (-> & -> & ->).
  destruct (init_zeroes this h m l) as (-> & -> & _ & -> & -> & _).
  repeat split; try assumption; lia.
Qed.

Lemma getCosmologyFromUser_cin_at_end (this : Cosmo) :
  (H0_ this <=? 0)%float = false -> (OmegaM_ this <? 0)%float = false ->
  getCosmologyFromUser_cin this []
  = Done (init this (H0_ this) (OmegaM_ this) (OmegaL_ this), [],
          [Prompted "Hubble constant" (H0_ this);
           Prompted "Omega matter" (OmegaM_ this);
           Prompted "Omega lambda" (OmegaL_ this)]).
Proof.
  intros Hh Hm; unfold getCosmologyFromUser_cin.
  cbn [List.length prompt_while promptForParam]; rewrite Hh.
  cbn [List.length prompt_while promptForParam]; rewrite Hm.
  reflexivity.
Qed.

(** X14: when the prompts end.  If the object's Hubble constant is not
    [<= 0] and its matter density is not [< 0], [getCosmologyFromUser]
    returns on every input; at the end of the input it initialises the
    object again with the parameters it has. *)
Theorem getCosmologyFromUser_returns (this : Cosmo) (cin : list string) :
  (H0_ this <=? 0)%float = false -> (OmegaM_ this <? 0)%float = false ->
  (exists r, getCosmologyFromUser_cin this cin = Done r) /\
  getCosmologyFromUser_cin this []
  = Done (init this (H0_ this) (OmegaM_ this) (OmegaL_ this), [],
          [Prompted "Hubble constant" (H0_ this);
           Prompted "Omega matter" (OmegaM_ this);
           Prompted "Omega lambda" (OmegaL_ this)]).
Proof.
  intros Hh Hm; split.
  - unfold getCosmologyFromUser_cin.
    destruct (prompt_while_ends (fun v => (v <=? 0)%float) HubbleMustBePositive
                "Hubble constant" (H0_ this) (S (List.length cin)) cin Hh
                ltac:(lia)) as [[[h cin1] out1] ->].
    destruct (prompt_while_ends (fun v => (v <? 0)%float)
                OmegaMatterMustBeNonNegative "Omega matter" (OmegaM_ this)
                (S (List.length cin1)) cin1 Hm ltac:(lia)) as [[[m cin2] out2] ->].
    destruct (promptForParam "Omega lambda" (OmegaL_ this) cin2) as [[l cin3] out3].
    eauto.
  - exact (getCosmologyFromUser_cin_at_end this Hh Hm).
Qed.

(** X15: when the prompts never end.  At the end of the input every prompt
    returns its default: if the object's Hubble constant is [<= 0], or its
    matter density is [< 0], [getCosmologyFromUser] repeats its complaint
    for ever. *)
Theorem getCosmologyFromUser_hangs (this : Cosmo) :
  (H0_ this <=? 0)%float = true \/ (OmegaM_ this <? 0)%float = true ->
  getCosmologyFromUser_cin this [] = Forever.
Proof.
  intros H; unfold getCosmologyFromUser_cin.
  cbn [List.length prompt_while promptForParam].
  destruct (H0_ this <=? 0)%float eqn:Hh; [reflexivity |].
  destruct H as [H | H]; [discriminate |].
  cbn [List.length prompt_while promptForParam]; rewrite H; reflexivity.
Qed.

End Prompting.

(** A C library stand-in for examples in which no line reaches [atof]. *)
Definition libc_uncalled : Libc := {| atof := fun _ => nan |}.

Section PromptingExamples.

#[local] Existing Instance libm_uncalled.
#[local] Existing Instance libc_uncalled.

Lemma default_parameters_pass :
  (H0_ (Cosmo_default raw0) <=? 0)%float = false /\
  (OmegaM_ (Cosmo_default raw0) <? 0)%float = false.
Proof.
  unfold Cosmo_default.
  destruct (init_params raw0 67.04 0.3183 0.6817) as (-> & -> & _).
  split; reflexivity.
Qed.

Lemma getCosmologyFromUser_validates_witness :
  getCosmologyFromUser_cin (Cosmo_default raw0) []
  = Done (init (Cosmo_default raw0) (H0_ (Cosmo_default raw0))
               (OmegaM_ (Cosmo_default raw0)) (OmegaL_ (Cosmo_default raw0)),
          [],
          [Prompted "Hubble constant" (H0_ (Cosmo_default raw0));
           Prompted "Omega matter" (OmegaM_ (Cosmo_default raw0));
           Prompted "Omega lambda" (OmegaL_ (Cosmo_default raw0))]) /\
  (H0_ (init (Cosmo_default raw0) (H0_ (Cosmo_default raw0))
             (OmegaM_ (Cosmo_default raw0)) (OmegaL_ (Cosmo_default raw0)))
   <=? 0)%float = false.
Proof.
  pose proof (getCosmologyFromUser_cin_at_end (Cosmo_default raw0)
                (proj1 default_parameters_pass) (proj2 default_parameters_pass))
    as Hdone.
  split; [exact Hdone |].
  exact (proj1 (getCosmologyFromUser_validates _ _ _ _ _ Hdone)).
Defined.

Lemma getCosmologyFromUser_returns_witness :
  (H0_ (Cosmo_default raw0) <=? 0)%float = false /\
  (OmegaM_ (Cosmo_default raw0) <? 0)%float = false /\
  exists r, getCosmologyFromUser_cin (Cosmo_default raw0) ["70"%string; "abc"%string; ""%string; "-1"%string]
            = Done r.
Proof.
  split; [exact (proj1 default_parameters_pass) |].
  split; [exact (proj2 default_parameters_pass) |].
  exact (proj1 (getCosmologyFromUser_returns (Cosmo_default raw0)
                  ["70"%string; "abc"%string; ""%string; "-1"%string]
                  (proj1 default_parameters_pass)
                  (proj2 default_parameters_pass))).
Defined.

(** An object built with [h = 0], as the command line allows. *)
Lemma getCosmologyFromUser_hangs_witness :
  (H0_ (Cosmo_params raw0 0 0.3 0.7) <=? 0)%float = true /\
  getCosmologyFromUser_cin (Cosmo_params raw0 0 0.3 0.7) [] = Forever.
Proof.
  assert (H : (H0_ (Cosmo_params raw0 0 0.3 0.7) <=? 0)%float = true).
  { unfold Cosmo_params.
    destruct (init_params raw0 0 0.3 0.7) as (-> & _); reflexivity. }
  split; [exact H |].
  exact (getCosmologyFromUser_hangs (Cosmo_params raw0 0 0.3 0.7) (or_introl H)).
Defined.

End PromptingExamples.

(** * The command line of [cosmic] *)

(** ** [std::string] members that take a position *)

Module StdString.

(** An [int] passed where a [size_t] is expected. *)
Definition to_size_t (x : Z) : Z := x mod 2 ^ 64.

(** The index of the first character at or after [pos] that satisfies [p],
    [npos] when there is none; the first character of [l] has index [i]. *)
Fixpoint find_if_from (p : ascii -> bool) (l : list ascii) (pos i : Z) : Z :=
  match l with
  | [] => Int.npos
  | x :: l' => if (pos <=? i) && p x then i else find_if_from p l' pos (i + 1)
  end.

Definition one_of (chars : string) (x : ascii) : bool :=
  existsb (Ascii.eqb x) (list_ascii_of_string chars).

(** [text.find_first_of(chars, pos)] and [text.find_first_not_of(chars, pos)] *)
Definition find_first_of (text chars : string) (pos : Z) : Z :=
  find_if_from (one_of chars) (list_ascii_of_string text) pos 0.
Definition find_first_not_of (text chars : string) (pos : Z) : Z :=
  find_if_from (fun x => negb (one_of chars x)) (list_ascii_of_string text) pos 0.

(** [text.substr(pos, len)]: [None] stands for [std::out_of_range], thrown
    when [pos] is past the end. *)
Definition substr (text : string) (pos len : Z) : option string :=
  if Z.of_nat (String.length text) <? pos then None
  else Some (string_of_list_ascii
               (take (Z.to_nat len) (drop (Z.to_nat pos) (list_ascii_of_string text)))).

(** [text.erase(pos, len)], called with a [pos] inside the string only. *)
Definition erase (text : string) (pos len : Z) : string :=
  string_of_list_ascii
    (take (Z.to_nat pos) (list_ascii_of_string text)
     ++ drop (Z.to_nat (pos + len)) (list_ascii_of_string text)).

(** [text[i]]: the character, the terminating [\0] at [i = size], and
    undefined behaviour ([None]) further out. *)
Definition at_ (text : string) (i : Z) : option ascii :=
  if i <? Z.of_nat (String.length text) then list_ascii_of_string text !! Z.to_nat i
  else if i =? Z.of_nat (String.length text) then Some zero
  else None.

End StdString.

(** How a call ends: it returns, or [std::out_of_range] leaves it (nothing
    in [cosmic] catches it), or its behaviour is undefined. *)
Inductive ending (A : Type) : Type :=
  | Returns (a : A)
  | OutOfRange
  | Undefined.
Arguments Returns {A} a.
Arguments OutOfRange {A}.
Arguments Undefined {A}.

Definition throwing {A : Type} (o : option A) : ending A :=
  match o with Some a => Returns a | None => OutOfRange end.
Definition defined {A : Type} (o : option A) : ending A :=
  match o with Some a => Returns a | None => Undefined end.
Definition and_then {A B : Type} (e : ending A) (k : A -> ending B) : ending B :=
  match e with
  | Returns a => k a
  | OutOfRange => OutOfRange
  | Undefined => Undefined
  end.
Notation "'let*' x := e 'in' k" := (and_then e (fun x => k))
  (at level 10, x name, e at level 200, k at level 200).

(** A double quote (character 34) or a single one. *)
Definition is_quote (ch : ascii) : bool :=
  Ascii.eqb "034" ch || Ascii.eqb "'" ch.

(** [while ("-" == key.substr(0, 1)) key.erase(0, 1);] *)
Fixpoint strip_dashes (key : string) : string :=
  match key with
  | String ch key' => if Ascii.eqb ch "-" then strip_dashes key' else key
  | EmptyString => EmptyString
  end.

(** [void splitArg(const string& text, string& key, string& value)]:
    the [key] and the [value] it leaves. *)
Definition splitArg (text key value : string) : ending (string * string) :=
  let n := Int.of_size_t (Z.of_nat (String.length text)) in
  let separator := "="%string in
  let start := Int.of_size_t (StdString.find_first_not_of text separator 0) in
  let stop :=
    Int.of_size_t
      (StdString.find_first_of text separator (StdString.to_size_t start)) in
  let stop := if (stop <? 0) || (n <? stop) then n else stop in
  let* key := throwing (StdString.substr text (StdString.to_size_t start)
                          (StdString.to_size_t (Int.wrap (stop - start)))) in
  if negb (stop =? n) then
    let start :=
      Int.of_size_t
        (StdString.find_first_not_of text separator
           (StdString.to_size_t (Int.wrap (stop + 1)))) in
    let* value := throwing (StdString.substr text (StdString.to_size_t start)
                              (StdString.to_size_t (Int.wrap (n - start)))) in
    (* strip off enclosing quotes around value, if there are any *)
    let* first := defined (StdString.at_ value 0) in
    let value := if is_quote first then StdString.erase value 0 1 else value in
    let n :=
      Int.of_size_t (StdString.to_size_t (Z.of_nat (String.length value) - 1)) in
    let* last := defined (StdString.at_ value (StdString.to_size_t n)) in
    let value :=
      if is_quote last then StdString.erase value (StdString.to_size_t n) 1
      else value in
    Returns (key, value)
  else
    let* head := throwing (StdString.substr key 0 1) in
    if negb (String.eqb "-" head) then Returns (key, value)
    else
      let key := strip_dashes key in
      let* head := throwing (StdString.substr key 0 2) in
      if String.eqb "no" head
      then Returns (StdString.erase key 0 2, "no"%string)
      else Returns (key, "yes"%string).


(** ** [processArgs] *)

(** The three tables of flags that [main] passes by reference. *)
Record flags : Type := mkFlags {
  bflags : gmap string bool;
  sflags : gmap string string;
  fflags : gmap string float
}.

(** What [processArgs] writes to [cerr]. *)
Inductive complaint : Type :=
  | IncompleteArgument (arg : string)
  | InvalidValue (key : string)
  | UnknownArgument (arg : string)
  | EndOfLine.

Section CommandLine.

Context {libc : Libc}.

(** One turn of the loop of [processArgs], on [argv[i]]: the tables, what
    has been written to [cerr] and [badArgs] after it. *)
Definition processArg (arg : string) (st : flags * list complaint * Z)
    : ending (flags * list complaint * Z) :=
  let '(f, cerr, badArgs) := st in
  (* split the key=value pair *)
  let* kv := splitArg arg "" "" in
  let '(key, value) := kv in
  if negb (Z.of_nat (String.length value) =? 0)%Z then
    if bool_decide (is_Some (bflags f !! key)) then
      let* first := defined (StdString.at_ value 0) in
      if Ascii.eqb "y" first || Ascii.eqb "Y" first then
        Returns (mkFlags (<[key := true]> (bflags f)) (sflags f) (fflags f),
                 cerr, badArgs)
      else if Ascii.eqb "n" first || Ascii.eqb "N" first then
        Returns (mkFlags (<[key := false]> (bflags f)) (sflags f) (fflags f),
                 cerr, badArgs)
      else Returns (f, cerr ++ [InvalidValue key], Int.wrap (badArgs + 1))
    else if bool_decide (is_Some (sflags f !! key)) then
      Returns (mkFlags (bflags f) (<[key := value]> (sflags f)) (fflags f),
               cerr, badArgs)
    else if bool_decide (is_Some (fflags f !! key)) then
      if negb (isNumeric value =? 0) then
        Returns (mkFlags (bflags f) (sflags f) (<[key := atof value]> (fflags f)),
                 cerr, badArgs)
      else Returns (f, cerr ++ [InvalidValue key], Int.wrap (badArgs + 1))
    else Returns (f, cerr ++ [UnknownArgument arg], Int.wrap (badArgs + 1))
  else Returns (f, cerr ++ [IncompleteArgument arg], Int.wrap (badArgs + 1)).

(** [for (int i = 1; i < argc; ++i)] over [args = argv[1..argc-1]]. *)
Fixpoint processArgs_loop (args : list string) (st : flags * list complaint * Z)
    : ending (flags * list complaint * Z) :=
  match args with
  | [] => Returns st
  | arg :: args' => let* st' := processArg arg st in processArgs_loop args' st'
  end.

(** [void processArgs(int argc, char** argv, map<string, bool>& bflags,
    map<string, string>& sflags, map<string, double>& fflags)] *)
Definition processArgs (args : list string) (f : flags)
    : ending (flags * list complaint) :=
  let* st := processArgs_loop args (f, [], 0) in
  let '(f', cerr, badArgs) := st in
  if negb (badArgs =? 0) then Returns (f', cerr ++ [EndOfLine])
  else Returns (f', cerr).

End CommandLine.

(** * Properties of the command line *)

(** A key as [splitArg] reads it: it has no separator in it. *)
Definition no_separator (s : string) : bool :=
  forallb (fun ch => negb (Ascii.eqb ch "=")) (list_ascii_of_string s).

(** The second half of the [key=value] branch of [splitArg], from the
    comment "strip off enclosing quotes" on. *)
Definition strip_quotes (key value : string) : ending (string * string) :=
  let* first := defined (StdString.at_ value 0) in
  let value := if is_quote first then StdString.erase value 0 1 else value in
  let n :=
    Int.of_size_t (StdString.to_size_t (Z.of_nat (String.length value) - 1)) in
  let* last := defined (StdString.at_ value (StdString.to_size_t n)) in
  let value :=
    if is_quote last then StdString.erase value (StdString.to_size_t n) 1
    else value in
  Returns (key, value).

(** The first half of that branch, once the key has been read. *)
Definition read_value (text key : string) : ending (string * string) :=
  let n := Z.of_nat (String.length text) in
  let start :=
    Int.of_size_t
      (StdString.find_first_not_of text "=" (Z.of_nat (String.length key) + 1)) in
  let* value := throwing (StdString.substr text (StdString.to_size_t start)
                            (StdString.to_size_t (Int.wrap (n - start)))) in
  strip_quotes key value.

(** The other branch of [splitArg], taken when the text has no separator
    after its key. *)
Definition read_flag (key value : string) : ending (string * string) :=
  let* head := throwing (StdString.substr key 0 1) in
  if negb (String.eqb "-" head) then Returns (key, value)
  else
    let key := strip_dashes key in
    let* head := throwing (StdString.substr key 0 2) in
    if String.eqb "no" head
    then Returns (StdString.erase key 0 2, "no"%string)
    else Returns (key, "yes"%string).

(** [m] times the character [ch]. *)
Fixpoint repeated (ch : ascii) (m : nat) : string :=
  match m with
  | O => EmptyString
  | S m' => String ch (repeated ch m')
  end.

Section SplitArg.

Import StdString.

Lemma list_ascii_of_string_app (a b : string) :
  list_ascii_of_string (a ++ b) = list_ascii_of_string a ++ list_ascii_of_string b.
Proof.
  induction a as [|ch a IH]; [reflexivity |].
  change (String ch a ++ b)%string with (String ch (a ++ b)).
  cbn [list_ascii_of_string]; rewrite IH; reflexivity.
Qed.

Lemma string_length_app (a b : string) :
  String.length (a ++ b) = (String.length a + String.length b)%nat.
Proof.
  induction a as [|ch a IH]; [reflexivity |].
  change (String ch a ++ b)%string with (String ch (a ++ b)).
  cbn [String.length]; rewrite IH; reflexivity.
Qed.

Lemma to_size_t_index (x : Z) : 0 <= x < 2147483648 -> to_size_t x = x.
Proof. intros H; unfold to_size_t; apply Z.mod_small; lia. Qed.

Lemma to_size_t_minus_one : to_size_t (-1) = Int.npos.
Proof. reflexivity. Qed.

Lemma find_if_from_none (p : ascii -> bool) (l : list ascii) (pos i : Z) :
  forallb (fun x => negb (p x)) l = true -> find_if_from p l pos i = Int.npos.
Proof.
  revert i; induction l as [|x l IH]; intros i H; [reflexivity |].
  cbn in H |- *; apply andb_true_iff in H as [Hx Hl].
  apply negb_true_iff in Hx; rewrite Hx, andb_false_r; apply IH, Hl.
Qed.

Lemma find_if_from_skip (p : ascii -> bool) (k l : list ascii) (pos i : Z) :
  forallb (fun x => negb (p x)) k = true ->
  find_if_from p (k ++ l) pos i = find_if_from p l pos (i + Z.of_nat (List.length k)).
Proof.
  revert i; induction k as [|x k IH]; intros i H.
  - cbn; f_equal; lia.
  - cbn in H; apply andb_true_iff in H as [Hx Hk]; apply negb_true_iff in Hx.
    cbn [app find_if_from]; rewrite Hx, andb_false_r, IH by exact Hk.
    f_equal; cbn [List.length]; lia.
Qed.

Lemma find_if_from_before (p : ascii -> bool) (k l : list ascii) (pos i : Z) :
  i + Z.of_nat (List.length k) <= pos ->
  find_if_from p (k ++ l) pos i = find_if_from p l pos (i + Z.of_nat (List.length k)).
Proof.
  revert i; induction k as [|x k IH]; intros i H.
  - cbn; f_equal; lia.
  - cbn [List.length] in H; cbn [app find_if_from].
    assert ((pos <=? i) = false) as -> by (apply Z.leb_gt; lia).
    cbn [andb]; rewrite IH by lia; f_equal; cbn [List.length]; lia.
Qed.

Lemma find_if_from_past (p : ascii -> bool) (l : list ascii) (pos i : Z) :
  i + Z.of_nat (List.length l) <= pos -> find_if_from p l pos i = Int.npos.
Proof.
  intros H; rewrite <- (app_nil_r l), find_if_from_before by exact H; reflexivity.
Qed.

Lemma find_if_from_hit (p : ascii -> bool) (x : ascii) (l : list ascii) (pos i : Z) :
  pos <= i -> p x = true -> find_if_from p (x :: l) pos i = i.
Proof.
  intros H Hx; cbn; rewrite Hx.
  assert ((pos <=? i) = true) as -> by (apply Z.leb_le; lia); reflexivity.
Qed.

Lemma no_separator_spec (k : string) :
  no_separator k = true ->
  forallb (fun x => negb (one_of "=" x)) (list_ascii_of_string k) = true.
Proof.
  unfold no_separator; induction (list_ascii_of_string k) as [|x l IH];
    [reflexivity |].
  cbn [forallb]; intros H; apply andb_true_iff in H as [Hx Hl].
  rewrite (IH Hl), andb_true_r.
  unfold one_of; cbn; rewrite orb_false_r; exact Hx.
Qed.

Lemma one_of_separator : one_of "=" "=" = true.
Proof. reflexivity. Qed.

Lemma not_separator (a : ascii) :
  Ascii.eqb a "=" = false -> negb (one_of "=" a) = true.
Proof. intros H; unfold one_of; cbn; rewrite H; reflexivity. Qed.

Lemma substr_spec (text : string) (pos len : Z) :
  0 <= pos <= Z.of_nat (String.length text) -> 0 <= len ->
  substr text pos len
  = Some (string_of_list_ascii
            (take (Z.to_nat len) (drop (Z.to_nat pos) (list_ascii_of_string text)))).
Proof.
  intros H _; unfold substr.
  assert ((Z.of_nat (String.length text) <? pos) = false) as ->
    by (apply Z.ltb_ge; lia); reflexivity.
Qed.

Lemma substr_npos (text : string) (len : Z) :
  Z.of_nat (String.length text) < 2147483648 -> substr text Int.npos len = None.
Proof.
  intros H; unfold substr.
  assert ((Z.of_nat (String.length text) <? Int.npos) = true) as ->
    by (apply Z.ltb_lt; unfold Int.npos; lia); reflexivity.
Qed.

Lemma first_not_separator (k : string) (l : list ascii) :
  k <> ""%string -> no_separator k = true ->
  find_if_from (fun x => negb (one_of "=" x)) (list_ascii_of_string k ++ l) 0 0 = 0.
Proof.
  intros Hk Hsep; destruct k as [|ch k']; [congruence |].
  cbn in Hsep; apply andb_true_iff in Hsep as [Hch _].
  cbn [list_ascii_of_string app].
  apply find_if_from_hit; [lia |].
  unfold one_of; cbn; rewrite orb_false_r; exact Hch.
Qed.

(** A key without separator followed by a separator: the key is read, and
    the text is searched for a value. *)
Lemma splitArg_key (k rest key value : string) :
  Z.of_nat (String.length (k ++ "=" ++ rest)) < 2147483648 ->
  k <> ""%string -> no_separator k = true ->
  splitArg (k ++ "=" ++ rest) key value = read_value (k ++ "=" ++ rest) k.
Proof.
  intros Hlen Hk Hsep.
  unfold splitArg, read_value, find_first_not_of, find_first_of.
  rewrite !string_length_app in Hlen; cbn [String.length] in Hlen.
  set (text := (k ++ "=" ++ rest)%string).
  assert (Htext : list_ascii_of_string text
                  = list_ascii_of_string k ++ "="%char :: list_ascii_of_string rest).
  { unfold text; rewrite !list_ascii_of_string_app; reflexivity. }
  assert (Hn : Z.of_nat (String.length text)
               = Z.of_nat (String.length k) + 1 + Z.of_nat (String.length rest)).
  { unfold text; rewrite !string_length_app; cbn [String.length]; lia. }
  rewrite Htext.
  pose proof (length_list_ascii_of_string k) as Hlk.
  rewrite (first_not_separator k _ Hk Hsep).
  change (Int.of_size_t 0) with 0; change (to_size_t 0) with 0.
  rewrite (find_if_from_skip (one_of "=") _ _ 0 0 (no_separator_spec k Hsep)).
  rewrite (find_if_from_hit (one_of "=")) by (try lia; reflexivity).
  rewrite Hlk, Hn, Z.add_0_l, Z.sub_0_r.
  rewrite (of_size_t_index (Z.of_nat (String.length k))) by lia.
  rewrite (of_size_t_index (Z.of_nat (String.length k) + 1
                            + Z.of_nat (String.length rest))) by lia.
  assert ((Z.of_nat (String.length k) <? 0) = false) as -> by (apply Z.ltb_ge; lia).
  assert ((Z.of_nat (String.length k) + 1 + Z.of_nat (String.length rest)
           <? Z.of_nat (String.length k)) = false) as -> by (apply Z.ltb_ge; lia).
  cbn [orb].
  rewrite (Int_wrap_in_range (Z.of_nat (String.length k))) by lia.
  rewrite (to_size_t_index (Z.of_nat (String.length k))) by lia.
  rewrite substr_spec by lia.
  rewrite Htext, Nat2Z.id, drop_0, take_app_length' by (symmetry; exact Hlk).
  rewrite string_of_list_ascii_of_string.
  cbn [throwing and_then].
  assert ((Z.of_nat (String.length k)
           =? Z.of_nat (String.length k) + 1 + Z.of_nat (String.length rest)) = false)
    as -> by (apply Z.eqb_neq; lia).
  cbn [negb].
  rewrite (Int_wrap_in_range (Z.of_nat (String.length k) + 1)) by lia.
  rewrite (to_size_t_index (Z.of_nat (String.length k) + 1)) by lia.
  reflexivity.
Qed.

(** The value begins where the separators end and runs to the end. *)
Lemma splitArg_pair (k v key value : string) (a : ascii) :
  Z.of_nat (String.length (k ++ "=" ++ String a v)) < 2147483648 ->
  k <> ""%string -> no_separator k = true -> Ascii.eqb a "=" = false ->
  splitArg (k ++ "=" ++ String a v) key value = strip_quotes k (String a v).
Proof.
  intros Hlen Hk Hsep Ha.
  rewrite splitArg_key by assumption.
  unfold read_value, find_first_not_of.
  rewrite !string_length_app in Hlen |- *; cbn [String.length] in Hlen |- *.
  rewrite !list_ascii_of_string_app.
  pose proof (length_list_ascii_of_string k) as Hlk.
  change (list_ascii_of_string "=" ++ list_ascii_of_string (String a v))
    with ("="%char :: a :: list_ascii_of_string v).
  rewrite (cons_middle "="%char), app_assoc.
  rewrite (find_if_from_before _ (list_ascii_of_string k ++ ["="%char]))
    by (rewrite length_app; cbn [List.length]; lia).
  rewrite find_if_from_hit
    by (try (rewrite length_app; cbn [List.length]; lia); apply not_separator, Ha).
  rewrite length_app, Hlk; cbn [List.length].
  rewrite (of_size_t_index (0 + Z.of_nat (String.length k + 1))) by lia.
  rewrite Int_wrap_in_range by lia.
  rewrite !to_size_t_index by lia.
  rewrite substr_spec
    by (rewrite ?string_length_app; cbn [String.length]; lia).
  rewrite !list_ascii_of_string_app.
  change (list_ascii_of_string "=" ++ list_ascii_of_string (String a v))
    with ("="%char :: a :: list_ascii_of_string v).
  rewrite (cons_middle "="%char), app_assoc.
  rewrite drop_app_length' by (rewrite length_app, Hlk; cbn [List.length]; lia).
  rewrite take_ge
    by (cbn [List.length]; rewrite length_list_ascii_of_string; lia).
  change (a :: list_ascii_of_string v) with (list_ascii_of_string (String a v)).
  rewrite string_of_list_ascii_of_string.
  reflexivity.
Qed.

Lemma at_first (a : ascii) (v : string) : at_ (String a v) 0 = Some a.
Proof. reflexivity. Qed.

Lemma last_cons (x d d' : ascii) (l : list ascii) :
  List.last (x :: l) d = List.last (x :: l) d'.
Proof.
  revert x; induction l as [|y l IH]; intros x; [reflexivity |].
  change (List.last (y :: l) d = List.last (y :: l) d'); apply IH.
Qed.

Lemma at_last (a : ascii) (v : string) :
  at_ (String a v) (Z.of_nat (String.length v))
  = Some (List.last (list_ascii_of_string v) a).
Proof.
  unfold at_; cbn [String.length].
  assert ((Z.of_nat (String.length v) <? Z.of_nat (S (String.length v))) = true)
    as -> by (apply Z.ltb_lt; lia).
  rewrite Nat2Z.id, <- length_list_ascii_of_string.
  cbn [list_ascii_of_string].
  revert a; induction (list_ascii_of_string v) as [|x l IH]; intros a;
    [reflexivity |].
  change ((x :: l) !! List.length l = Some (List.last (x :: l) a)).
  rewrite (IH x).
  destruct l as [|y l]; [reflexivity |].
  f_equal; change (List.last (y :: l) x = List.last (y :: l) a); apply last_cons.
Qed.

Lemma last_index (b : ascii) (v : string) :
  Z.of_nat (String.length v) < 2147483648 ->
  to_size_t (Int.of_size_t (to_size_t (Z.of_nat (String.length (String b v)) - 1)))
  = Z.of_nat (String.length v).
Proof.
  intros H; cbn [String.length].
  replace (Z.of_nat (S (String.length v)) - 1) with (Z.of_nat (String.length v))
    by lia.
  rewrite (to_size_t_index (Z.of_nat (String.length v))) by lia.
  rewrite of_size_t_index by lia.
  apply to_size_t_index; lia.
Qed.

(** A plain value is left as it is by the two tests for quotes. *)
Lemma strip_quotes_plain (k v : string) (a : ascii) :
  Z.of_nat (String.length v) < 2147483648 ->
  is_quote a = false ->
  is_quote (List.last (list_ascii_of_string v) a) = false ->
  strip_quotes k (String a v) = Returns (k, String a v).
Proof.
  intros Hlen Hq Hlast; unfold strip_quotes.
  rewrite at_first; cbn [defined and_then]; rewrite Hq.
  rewrite last_index, at_last by lia.
  cbn [defined and_then]; rewrite Hlast; reflexivity.
Qed.

(** X16: An argument [key=value] is split at its separator: a key without
    [=], one [=], and a value that neither begins with [=] nor has a quote at
    either end come back as they were written. *)
Theorem splitArg_key_value (k v key value : string) (a : ascii) :
  Z.of_nat (String.length (k ++ "=" ++ String a v)) < 2147483648 ->
  k <> ""%string -> no_separator k = true ->
  Ascii.eqb a "=" = false -> is_quote a = false ->
  is_quote (List.last (list_ascii_of_string v) a) = false ->
  splitArg (k ++ "=" ++ String a v) key value = Returns (k, String a v).
Proof.
  intros Hlen Hk Hsep Ha Hq Hlast.
  rewrite splitArg_pair by assumption.
  rewrite !string_length_app in Hlen; cbn [String.length] in Hlen.
  apply strip_quotes_plain; [lia | exact Hq | exact Hlast].
Qed.

Lemma erase_first (b : ascii) (w : string) : erase (String b w) 0 1 = w.
Proof.
  unfold erase; cbn [list_ascii_of_string Z.to_nat Z.add Pos.to_nat Pos.iter_op
                     take drop app].
  apply string_of_list_ascii_of_string.
Qed.

Lemma erase_last (v : string) (q : ascii) :
  erase (v ++ String q "") (Z.of_nat (String.length v)) 1 = v.
Proof.
  unfold erase; rewrite list_ascii_of_string_app.
  rewrite Nat2Z.id, take_app_length' by (symmetry; apply length_list_ascii_of_string).
  rewrite drop_ge
    by (rewrite length_app, length_list_ascii_of_string; cbn [List.length
          list_ascii_of_string]; lia).
  rewrite app_nil_r; apply string_of_list_ascii_of_string.
Qed.

Lemma at_app (v : string) (q : ascii) :
  at_ (v ++ String q "") (Z.of_nat (String.length v)) = Some q.
Proof.
  unfold at_; rewrite string_length_app; cbn [String.length].
  assert ((Z.of_nat (String.length v) <? Z.of_nat (String.length v + 1)) = true)
    as -> by (apply Z.ltb_lt; lia).
  rewrite list_ascii_of_string_app, Nat2Z.id, <- length_list_ascii_of_string.
  rewrite lookup_app_r by lia.
  rewrite Nat.sub_diag; reflexivity.
Qed.

Lemma last_index_app (v w : string) :
  Z.of_nat (String.length v) < 2147483648 ->
  String.length w = 1%nat ->
  to_size_t (Int.of_size_t (to_size_t (Z.of_nat (String.length (v ++ w)) - 1)))
  = Z.of_nat (String.length v).
Proof.
  intros H Hw; rewrite string_length_app, Hw.
  replace (Z.of_nat (String.length v + 1) - 1) with (Z.of_nat (String.length v))
    by lia.
  rewrite (to_size_t_index (Z.of_nat (String.length v))) by lia.
  rewrite of_size_t_index by lia.
  apply to_size_t_index; lia.
Qed.

Lemma is_quote_not_separator (q : ascii) :
  is_quote q = true -> Ascii.eqb q "=" = false.
Proof.
  unfold is_quote; intros H; apply orb_true_iff in H as [H | H];
    apply Ascii.eqb_eq in H; subst q; reflexivity.
Qed.

(** X17: A value written between quotes comes back without them, whatever
    is between them (nothing, separators, other quotes), and the two quotes
    need not be the same character. *)
Theorem splitArg_quoted_value (k v key value : string) (q1 q2 : ascii) :
  Z.of_nat (String.length (k ++ "=" ++ String q1 (v ++ String q2 ""))) < 2147483648 ->
  k <> ""%string -> no_separator k = true ->
  is_quote q1 = true -> is_quote q2 = true ->
  splitArg (k ++ "=" ++ String q1 (v ++ String q2 "")) key value = Returns (k, v).
Proof.
  intros Hlen Hk Hsep H1 H2.
  rewrite splitArg_pair by (try assumption; apply is_quote_not_separator, H1).
  rewrite !string_length_app in Hlen; cbn [String.length] in Hlen.
  rewrite string_length_app in Hlen; cbn [String.length] in Hlen.
  unfold strip_quotes.
  rewrite at_first; cbn [defined and_then]; rewrite H1, erase_first.
  rewrite last_index_app, at_app by (try reflexivity; lia).
  cbn [defined and_then]; rewrite H2, erase_last; reflexivity.
Qed.

(** X18: A value that is one quote and nothing else: the quote is erased,
    and the test for a closing quote then reads the empty value at index
    [(size_t) -1]. *)
Theorem splitArg_lone_quote (k key value : string) (q : ascii) :
  Z.of_nat (String.length (k ++ "=" ++ String q "")) < 2147483648 ->
  k <> ""%string -> no_separator k = true -> is_quote q = true ->
  splitArg (k ++ "=" ++ String q "") key value = Undefined.
Proof.
  intros Hlen Hk Hsep Hq.
  rewrite splitArg_pair by (try assumption; apply is_quote_not_separator, Hq).
  unfold strip_quotes.
  rewrite at_first; cbn [defined and_then]; rewrite Hq, erase_first.
  reflexivity.
Qed.

Lemma repeated_length (ch : ascii) (m : nat) : String.length (repeated ch m) = m.
Proof. induction m as [|m IH]; cbn; [reflexivity | rewrite IH; reflexivity]. Qed.

Lemma separators_only (m : nat) :
  forallb (fun x => negb (negb (one_of "=" x)))
    (list_ascii_of_string (repeated "=" m)) = true.
Proof. induction m as [|m IH]; [reflexivity | exact IH]. Qed.

(** Separators only: there is no key to read. *)
Lemma splitArg_separators (key value : string) (m : nat) :
  Z.of_nat (String.length (repeated "=" m)) < 2147483648 ->
  splitArg (repeated "=" m) key value = OutOfRange.
Proof.
  intros Hlen; unfold splitArg, find_first_not_of, find_first_of.
  rewrite (find_if_from_none _ _ 0 0 (separators_only m)).
  rewrite of_size_t_npos, to_size_t_minus_one.
  rewrite substr_npos by exact Hlen; reflexivity.
Qed.

(** Separators and nothing after them: the search for a value fails. *)
Lemma read_value_throws (k : string) (m : nat) :
  Z.of_nat (String.length (k ++ "=" ++ repeated "=" m)) < 2147483648 ->
  read_value (k ++ "=" ++ repeated "=" m) k = OutOfRange.
Proof.
  intros Hlen; unfold read_value, find_first_not_of.
  rewrite !list_ascii_of_string_app.
  change (list_ascii_of_string "=" ++ list_ascii_of_string (repeated "=" m))
    with ("="%char :: list_ascii_of_string (repeated "=" m)).
  rewrite (cons_middle "="%char), app_assoc.
  rewrite (find_if_from_before _ (list_ascii_of_string k ++ ["="%char]))
    by (rewrite length_app, length_list_ascii_of_string; cbn [List.length]; lia).
  rewrite (find_if_from_none _ _ _ _ (separators_only m)).
  rewrite of_size_t_npos, to_size_t_minus_one.
  rewrite substr_npos by exact Hlen; reflexivity.
Qed.

(** X19: An argument without a value does not come back: when nothing but
    separators follows the key, or when there is no key either (the empty
    argument included), [substr] is called at [(size_t) -1] and throws
    [std::out_of_range]. *)
Theorem splitArg_without_value (k key value : string) (m : nat) :
  Z.of_nat (String.length (k ++ repeated "=" m)) < 2147483648 ->
  no_separator k = true -> k = ""%string \/ (0 < m)%nat ->
  splitArg (k ++ repeated "=" m) key value = OutOfRange.
Proof.
  intros Hlen Hsep Hcase.
  destruct (String.string_dec k "") as [-> | Hk].
  - exact (splitArg_separators key value m Hlen).
  - destruct Hcase as [? | Hm]; [congruence |].
    destruct m as [|m]; [lia |].
    change (repeated "=" (S m)) with ("=" ++ repeated "=" m)%string in *.
    rewrite splitArg_key by assumption.
    exact (read_value_throws k m Hlen).
Qed.

Lemma splitArg_word (w key value : string) :
  Z.of_nat (String.length w) < 2147483648 ->
  w <> ""%string -> no_separator w = true ->
  splitArg w key value = read_flag w value.
Proof.
  intros Hlen Hw Hsep.
  unfold splitArg, read_flag, find_first_not_of, find_first_of.
  pose proof (first_not_separator w [] Hw Hsep) as H1.
  rewrite app_nil_r in H1; rewrite H1.
  change (Int.of_size_t 0) with 0; change (to_size_t 0) with 0.
  rewrite (find_if_from_none _ _ 0 0 (no_separator_spec w Hsep)).
  rewrite of_size_t_npos; cbn [Z.ltb Z.compare orb].
  rewrite Z.sub_0_r, (of_size_t_index (Z.of_nat (String.length w))) by lia.
  rewrite Int_wrap_in_range, to_size_t_index by lia.
  rewrite substr_spec by lia.
  rewrite drop_0, take_ge by (rewrite length_list_ascii_of_string; lia).
  rewrite string_of_list_ascii_of_string.
  cbn [throwing and_then]; rewrite Z.eqb_refl; reflexivity.
Qed.

Lemma strip_dashes_repeated (m : nat) (w : string) :
  strip_dashes (repeated "-" m ++ w) = strip_dashes w.
Proof. induction m as [|m IH]; [reflexivity | exact IH]. Qed.

Lemma no_separator_app (a b : string) :
  no_separator (a ++ b) = no_separator a && no_separator b.
Proof.
  unfold no_separator; rewrite list_ascii_of_string_app; apply forallb_app.
Qed.

Lemma no_separator_dashes (m : nat) : no_separator (repeated "-" m) = true.
Proof. induction m as [|m IH]; [reflexivity | exact IH]. Qed.

Lemma no_separator_flag (w : string) (m : nat) :
  no_separator w = true -> no_separator (repeated "-" (S m) ++ w) = true.
Proof.
  intros Hsep; rewrite no_separator_app, no_separator_dashes, Hsep; reflexivity.
Qed.

(** Dashes, [no] and a name. *)
Lemma read_flag_dashes_no (w value : string) (m : nat) :
  read_flag (repeated "-" (S m) ++ "no" ++ w) value = Returns (w, "no"%string).
Proof.
  unfold read_flag.
  change (substr (repeated "-" (S m) ++ "no" ++ w) 0 1) with (Some "-"%string).
  cbn [throwing and_then String.eqb Ascii.eqb Bool.eqb negb].
  rewrite strip_dashes_repeated.
  change (strip_dashes ("no" ++ w)) with ("no" ++ w)%string.
  change (substr ("no" ++ w) 0 2) with (Some "no"%string).
  cbn [throwing and_then String.eqb Ascii.eqb Bool.eqb].
  change (erase ("no" ++ w) 0 2)
    with (string_of_list_ascii (list_ascii_of_string w)).
  rewrite string_of_list_ascii_of_string; reflexivity.
Qed.

(** X20: A flag whose name begins with [no]: after one or more dashes the
    two letters are taken off and the value is [no], whatever follows them. *)
Theorem splitArg_negated_flag (w key value : string) (m : nat) :
  Z.of_nat (String.length (repeated "-" (S m) ++ "no" ++ w)) < 2147483648 ->
  no_separator w = true ->
  splitArg (repeated "-" (S m) ++ "no" ++ w) key value = Returns (w, "no"%string).
Proof.
  intros Hlen Hsep.
  rewrite splitArg_word
    by (try exact Hlen; try discriminate;
        apply no_separator_flag; rewrite no_separator_app, Hsep; reflexivity).
  apply read_flag_dashes_no.
Qed.

Lemma head_is_dash (w : string) :
  match substr w 0 1 with
  | Some head => String.eqb "-" head = String.prefix "-" w
  | None => False
  end.
Proof.
  destruct w as [|ch w]; [reflexivity |].
  change (substr (String ch w) 0 1) with (Some (String ch "")).
  cbn [String.eqb String.prefix].
  rewrite (Ascii.eqb_sym "-" ch).
  destruct (Ascii.eqb_spec ch "-") as [-> | Hne].
  - destruct (ascii_dec "-" "-"); [destruct w; reflexivity | congruence].
  - destruct (ascii_dec "-" ch); [congruence | reflexivity].
Qed.

Lemma head_is_no (w : string) :
  match substr w 0 2 with
  | Some head => String.eqb "no" head = String.prefix "no" w
  | None => False
  end.
Proof.
  destruct w as [|c1 [|c2 w]].
  - reflexivity.
  - change (substr (String c1 "") 0 2) with (Some (String c1 "")).
    cbn [String.eqb String.prefix].
    destruct (Ascii.eqb_spec "n" c1) as [H1 | H1], (ascii_dec "n" c1);
      try congruence; reflexivity.
  - change (substr (String c1 (String c2 w)) 0 2)
      with (Some (String c1 (String c2 ""))).
    cbn [String.eqb String.prefix].
    destruct (Ascii.eqb_spec "n" c1) as [H1 | H1], (ascii_dec "n" c1);
      try congruence; try reflexivity.
    destruct (Ascii.eqb_spec "o" c2) as [H2 | H2], (ascii_dec "o" c2);
      try congruence; try reflexivity.
    destruct w; reflexivity.
Qed.

Lemma strip_dashes_none (w : string) :
  String.prefix "-" w = false -> strip_dashes w = w.
Proof.
  destruct w as [|ch w]; [reflexivity |].
  cbn [String.prefix strip_dashes].
  destruct (Ascii.eqb_spec ch "-") as [-> | Hne]; [| reflexivity].
  destruct (ascii_dec "-" "-"); [destruct w; discriminate | congruence].
Qed.

(** Dashes and a name. *)
Lemma read_flag_dashes (w value : string) (m : nat) :
  String.prefix "-" w = false -> String.prefix "no" w = false ->
  read_flag (repeated "-" (S m) ++ w) value = Returns (w, "yes"%string).
Proof.
  intros Hdash Hno; unfold read_flag.
  change (substr (repeated "-" (S m) ++ w) 0 1) with (Some "-"%string).
  cbn [throwing and_then]; change (String.eqb "-" "-") with true; cbn [negb].
  rewrite strip_dashes_repeated, (strip_dashes_none w Hdash).
  pose proof (head_is_no w) as H.
  destruct (substr w 0 2) as [head |]; [| contradiction].
  cbn [throwing and_then]; rewrite H, Hno; reflexivity.
Qed.

(** X21: A flag: one or more dashes and a name that does not begin with
    [no] give the name and the value [yes]. *)
Theorem splitArg_flag (w key value : string) (m : nat) :
  Z.of_nat (String.length (repeated "-" (S m) ++ w)) < 2147483648 ->
  no_separator w = true ->
  String.prefix "-" w = false -> String.prefix "no" w = false ->
  splitArg (repeated "-" (S m) ++ w) key value = Returns (w, "yes"%string).
Proof.
  intros Hlen Hsep Hdash Hno.
  rewrite splitArg_word
    by (try exact Hlen; try discriminate; apply no_separator_flag, Hsep).
  apply read_flag_dashes; assumption.
Qed.

(** X22: A word that is neither [key=value] nor a flag leaves [value] as
    the caller passed it. *)
Theorem splitArg_bare_word (w key value : string) :
  Z.of_nat (String.length w) < 2147483648 ->
  w <> ""%string -> no_separator w = true -> String.prefix "-" w = false ->
  splitArg w key value = Returns (w, value).
Proof.
  intros Hlen Hw Hsep Hdash.
  rewrite splitArg_word by assumption.
  unfold read_flag.
  pose proof (head_is_dash w) as H.
  destruct (substr w 0 1) as [head |]; [| contradiction].
  cbn [throwing and_then]; rewrite H, Hdash; reflexivity.
Qed.

End SplitArg.

(** Whether a call comes back to its caller. *)
Definition returns {A : Type} (e : ending A) : bool :=
  match e with Returns _ => true | _ => false end.

(** The tables as [main] fills them before it calls [processArgs]. *)
Definition main_flags : flags :=
  mkFlags
    (<["version"%string := false]> (<["html"%string := false]>
       (<["prompt"%string := true]> (<["quiet"%string := false]>
          (<["help"%string := false]> ∅)))))
    (<["outfile"%string := "cosmic.out"%string]> (<["batch"%string := ""%string]> ∅))
    (<["z"%string := (-1)%float]> (<["l"%string := 0.73%float]>
       (<["m"%string := 0.27%float]> (<["h"%string := 71%float]> ∅)))).

Section ProcessArgs.

Context {libc : Libc}.

(** What one turn of the loop may do to the tables. *)
Definition keeps_keys (f f' : flags) : Prop :=
  dom (bflags f') = dom (bflags f)
  /\ dom (sflags f') = dom (sflags f)
  /\ dom (fflags f') = dom (fflags f).

Definition numbers_checked (f f' : flags) : Prop :=
  forall (key : string) (x : float),
    fflags f' !! key = Some x ->
    fflags f !! key = Some x
    \/ exists value : string, isNumeric value <> 0 /\ x = atof value.

Lemma processArg_cases (arg : string) (f : flags) (cerr : list complaint)
    (badArgs : Z) (st' : flags * list complaint * Z) :
  processArg arg (f, cerr, badArgs) = Returns st' ->
  (exists (key : string) (b : bool),
      is_Some (bflags f !! key)
      /\ st'.1.1 = mkFlags (<[key := b]> (bflags f)) (sflags f) (fflags f))
  \/ (exists key value : string,
        is_Some (sflags f !! key)
        /\ st'.1.1 = mkFlags (bflags f) (<[key := value]> (sflags f)) (fflags f))
  \/ (exists key value : string,
        is_Some (fflags f !! key) /\ isNumeric value <> 0
        /\ st'.1.1 = mkFlags (bflags f) (sflags f) (<[key := atof value]> (fflags f)))
  \/ st'.1.1 = f.
Proof.
  unfold processArg.
  destruct (splitArg arg "" "") as [[key value] | |]; cbn [and_then];
    try discriminate.
  destruct (negb _).
  2:{ intros [= <-]; right; right; right; reflexivity. }
  destruct (bool_decide (is_Some (bflags f !! key))) eqn:Hb.
  { apply bool_decide_eq_true in Hb.
    destruct (defined (StdString.at_ value 0)) as [first | |]; cbn [and_then];
      try discriminate.
    destruct (_ || _).
    { intros [= <-]; left; exists key, true; split; [exact Hb | reflexivity]. }
    destruct (_ || _).
    { intros [= <-]; left; exists key, false; split; [exact Hb | reflexivity]. }
    intros [= <-]; right; right; right; reflexivity. }
  destruct (bool_decide (is_Some (sflags f !! key))) eqn:Hs.
  { apply bool_decide_eq_true in Hs.
    intros [= <-]; right; left; exists key, value; split; [exact Hs | reflexivity]. }
  destruct (bool_decide (is_Some (fflags f !! key))) eqn:Hf.
  { apply bool_decide_eq_true in Hf.
    destruct (isNumeric value =? 0) eqn:Hnum; cbn [negb].
    { intros [= <-]; right; right; right; reflexivity. }
    apply Z.eqb_neq in Hnum.
    intros [= <-]; right; right; left; exists key, value; auto. }
  intros [= <-]; right; right; right; reflexivity.
Qed.

Lemma keeps_keys_refl (f : flags) : keeps_keys f f.
Proof. repeat split. Qed.

Lemma keeps_keys_trans (f g h : flags) :
  keeps_keys f g -> keeps_keys g h -> keeps_keys f h.
Proof.
  intros (H1 & H2 & H3) (H4 & H5 & H6); repeat split; congruence.
Qed.

Lemma processArg_keeps_keys (arg : string) (st st' : flags * list complaint * Z) :
  processArg arg st = Returns st' -> keeps_keys st.1.1 st'.1.1.
Proof.
  destruct st as [[f cerr] badArgs]; intros H.
  apply processArg_cases in H
    as [(key & b & Hin & ->) | [(key & value & Hin & ->)
        | [(key & value & Hin & _ & ->) | ->]]];
    cbn [fst]; repeat split; cbn [bflags sflags fflags];
    try reflexivity; apply dom_insert_lookup_L, Hin.
Qed.

Lemma processArg_numbers_checked (arg : string) (st st' : flags * list complaint * Z) :
  processArg arg st = Returns st' -> numbers_checked st.1.1 st'.1.1.
Proof.
  destruct st as [[f cerr] badArgs]; intros H.
  apply processArg_cases in H
    as [(key & b & Hin & ->) | [(key & value & Hin & ->)
        | [(key & value & Hin & Hnum & ->) | ->]]];
    cbn [fst]; intros k x; cbn [fflags]; try (intros Hk; left; exact Hk).
  destruct (decide (key = k)) as [-> | Hne].
  - rewrite lookup_insert_eq; intros [= <-]; right; exists value; auto.
  - rewrite lookup_insert_ne by exact Hne; intros Hk; left; exact Hk.
Qed.

Lemma numbers_checked_trans (f g h : flags) :
  numbers_checked f g -> numbers_checked g h -> numbers_checked f h.
Proof.
  intros H1 H2 key x Hx.
  destruct (H2 key x Hx) as [Hg | Hv]; [apply H1, Hg | right; exact Hv].
Qed.

Lemma processArgs_loop_invariant (R : flags -> flags -> Prop) :
  (forall f, R f f) ->
  (forall f g h, R f g -> R g h -> R f h) ->
  (forall arg st st', processArg arg st = Returns st' -> R st.1.1 st'.1.1) ->
  forall args st st',
    processArgs_loop args st = Returns st' -> R st.1.1 st'.1.1.
Proof.
  intros Hrefl Htrans Hstep args; induction args as [|arg args IH]; intros st st'.
  - intros [= <-]; apply Hrefl.
  - cbn [processArgs_loop].
    destruct (processArg arg st) as [st1 | |] eqn:H1; cbn [and_then];
      try discriminate.
    intros H; eapply Htrans; [eapply Hstep, H1 | apply IH, H].
Qed.

Lemma processArgs_returns (args : list string) (f f' : flags)
    (cerr : list complaint) :
  processArgs args f = Returns (f', cerr) ->
  exists st', processArgs_loop args (f, [], 0) = Returns st' /\ st'.1.1 = f'.
Proof.
  unfold processArgs.
  destruct (processArgs_loop args (f, [], 0)) as [[[f1 cerr1] bad] | |];
    cbn [and_then]; try discriminate.
  destruct (negb _); intros [= <- _]; eexists; split; reflexivity.
Qed.

(** X23: [processArgs] neither adds a flag to a table nor takes one away:
    when it returns, each of the three tables has the keys it had. *)
Theorem processArgs_keeps_keys (args : list string) (f f' : flags)
    (cerr : list complaint) :
  processArgs args f = Returns (f', cerr) -> keeps_keys f f'.
Proof.
  intros H; apply processArgs_returns in H as (st' & H & <-).
  exact (processArgs_loop_invariant keeps_keys keeps_keys_refl keeps_keys_trans
           processArg_keeps_keys args _ _ H).
Qed.

(** X24: A numeric flag after [processArgs] is the value it had before or
    [atof] of a text that [isNumeric] accepted. *)
Theorem processArgs_numbers_checked (args : list string) (f f' : flags)
    (cerr : list complaint) :
  processArgs args f = Returns (f', cerr) -> numbers_checked f f'.
Proof.
  intros H; apply processArgs_returns in H as (st' & H & <-).
  refine (processArgs_loop_invariant numbers_checked _ numbers_checked_trans
            processArg_numbers_checked args _ _ H).
  intros g key x Hx; left; exact Hx.
Qed.

Lemma allowed_char_plain (ch : ascii) :
  allowed_char ch = true -> Ascii.eqb ch "=" = false /\ is_quote ch = false.
Proof.
  unfold allowed_char; cbn [list_ascii_of_string existsb].
  rewrite !orb_true_iff; intros H.
  repeat (destruct H as [H | H]); try discriminate;
    apply Ascii.eqb_eq in H; subst ch; split; reflexivity.
Qed.

Lemma forallb_last (p : ascii -> bool) (l : list ascii) (a : ascii) :
  p a = true -> forallb p l = true -> p (List.last l a) = true.
Proof.
  revert a; induction l as [|x l IH]; intros a Ha H; [exact Ha |].
  cbn [forallb] in H; apply andb_true_iff in H as [Hx Hl].
  destruct l as [|y l]; [exact Hx |].
  change (p (List.last (y :: l) a) = true); apply IH; [exact Ha | exact Hl].
Qed.

(** X25: [key=value] for a numeric flag: when [key] is in the table of
    numeric flags only and [isNumeric] accepts the value, the flag becomes
    [atof] of the value, nothing else changes and nothing is written to
    [cerr]. *)
Theorem processArgs_numeric_flag (k v : string) (f : flags) :
  Z.of_nat (String.length (k ++ "=" ++ v)) < 2147483648 ->
  k <> ""%string -> no_separator k = true ->
  v <> ""%string -> isNumeric v <> 0 ->
  bflags f !! k = None -> sflags f !! k = None -> is_Some (fflags f !! k) ->
  processArgs [(k ++ "=" ++ v)%string] f
  = Returns (mkFlags (bflags f) (sflags f) (<[k := atof v]> (fflags f)), []).
Proof.
  intros Hlen Hk Hsep Hv Hnum Hb Hs Hf.
  destruct v as [|a v]; [congruence |].
  assert (Hshape : accepted_shape (String a v) = true).
  { assert (Hlv : Z.of_nat (String.length (String a v)) < 2147483648).
    { rewrite !string_length_app in Hlen.
      cbn [String.length] in Hlen |- *; lia. }
    rewrite isNumeric_shape in Hnum by exact Hlv.
    destruct (accepted_shape (String a v)); [reflexivity | congruence]. }
  unfold accepted_shape in Hshape.
  apply andb_true_iff in Hshape as [Hshape _].
  apply andb_true_iff in Hshape as [Hall _].
  cbn [list_ascii_of_string forallb] in Hall.
  apply andb_true_iff in Hall as [Ha Hall].
  pose proof (forallb_last allowed_char _ a Ha Hall) as Hlast.
  apply allowed_char_plain in Ha as [Ha1 Ha2].
  apply allowed_char_plain in Hlast as [_ Hlast].
  unfold processArgs; cbn [processArgs_loop]; unfold processArg.
  rewrite (splitArg_pair k v "" "" a Hlen Hk Hsep Ha1).
  rewrite strip_quotes_plain
    by (try assumption; rewrite !string_length_app in Hlen;
        cbn [String.length] in Hlen; lia).
  cbn [and_then String.length].
  assert ((Z.of_nat (S (String.length v)) =? 0) = false) as ->
    by (apply Z.eqb_neq; lia).
  cbn [negb].
  rewrite (bool_decide_eq_false_2 (is_Some (bflags f !! k)))
    by (rewrite Hb; apply is_Some_None).
  rewrite (bool_decide_eq_false_2 (is_Some (sflags f !! k)))
    by (rewrite Hs; apply is_Some_None).
  rewrite (bool_decide_eq_true_2 (is_Some (fflags f !! k))) by exact Hf.
  apply Z.eqb_neq in Hnum; rewrite Hnum; reflexivity.
Qed.

(** X26: A boolean flag on the command line: [-name] switches it on and
    [-noname] switches it off, nothing else changes and nothing is written
    to [cerr]. *)
Theorem processArgs_switch (w : string) (m : nat) (f : flags) :
  Z.of_nat (String.length (repeated "-" (S m) ++ "no" ++ w)) < 2147483648 ->
  no_separator w = true ->
  String.prefix "-" w = false -> String.prefix "no" w = false ->
  is_Some (bflags f !! w) ->
  processArgs [(repeated "-" (S m) ++ w)%string] f
  = Returns (mkFlags (<[w := true]> (bflags f)) (sflags f) (fflags f), [])
  /\ processArgs [(repeated "-" (S m) ++ "no" ++ w)%string] f
     = Returns (mkFlags (<[w := false]> (bflags f)) (sflags f) (fflags f), []).
Proof.
  intros Hlen Hsep Hdash Hno Hb.
  assert (Hlen' : Z.of_nat (String.length (repeated "-" (S m) ++ w)) < 2147483648).
  { rewrite !string_length_app in Hlen; rewrite string_length_app; lia. }
  split; unfold processArgs; cbn [processArgs_loop]; unfold processArg.
  - rewrite splitArg_word
      by (try exact Hlen'; try discriminate; apply no_separator_flag, Hsep).
    rewrite (read_flag_dashes w "" m Hdash Hno).
    cbn [and_then]; change (negb (Z.of_nat (String.length "yes") =? 0)) with true.
    cbv iota.
    rewrite (bool_decide_eq_true_2 (is_Some (bflags f !! w))) by exact Hb.
    reflexivity.
  - rewrite splitArg_word
      by (try exact Hlen; try discriminate;
          apply no_separator_flag; rewrite no_separator_app, Hsep; reflexivity).
    rewrite (read_flag_dashes_no w "" m).
    cbn [and_then]; change (negb (Z.of_nat (String.length "no") =? 0)) with true.
    cbv iota.
    rewrite (bool_decide_eq_true_2 (is_Some (bflags f !! w))) by exact Hb.
    reflexivity.
Qed.

Lemma processArgs_loop_stops (bad : string) (args1 args2 : list string)
    (st : flags * list complaint * Z) :
  splitArg bad "" "" = OutOfRange ->
  returns (processArgs_loop (args1 ++ bad :: args2) st) = false.
Proof.
  intros Hbad; revert st; induction args1 as [|arg args1 IH]; intros st.
  - cbn [app processArgs_loop]; unfold processArg.
    destruct st as [[f cerr] badArgs]; rewrite Hbad; reflexivity.
  - cbn [app processArgs_loop].
    destruct (processArg arg st) as [st1 | |]; cbn [and_then];
      [apply IH | reflexivity | reflexivity].
Qed.

(** X27: One argument without a value anywhere on the command line, and
    [processArgs] does not come back: the exception of [splitArg] is not
    caught. *)
Theorem processArgs_stops_at_missing_value (k : string) (m : nat)
    (args1 args2 : list string) (f : flags) :
  Z.of_nat (String.length (k ++ repeated "=" m)) < 2147483648 ->
  no_separator k = true -> k = ""%string \/ (0 < m)%nat ->
  returns (processArgs (args1 ++ (k ++ repeated "=" m)%string :: args2) f) = false.
Proof.
  intros Hlen Hsep Hcase; unfold processArgs.
  assert (Hbad : splitArg (k ++ repeated "=" m) "" "" = OutOfRange).
  { destruct (String.string_dec k "") as [-> | Hk].
    - exact (splitArg_separators "" "" m Hlen).
    - destruct Hcase as [? | Hm]; [congruence |].
      destruct m as [|m]; [lia |].
      change (repeated "=" (S m)) with ("=" ++ repeated "=" m)%string in *.
      rewrite splitArg_key by assumption.
      exact (read_value_throws k m Hlen). }
  pose proof (processArgs_loop_stops _ args1 args2 (f, [], 0) Hbad) as H.
  destruct (processArgs_loop _ _) as [st | |]; [discriminate | |]; reflexivity.
Qed.

End ProcessArgs.

Section CommandLineExamples.

#[local] Existing Instance libc_uncalled.

Lemma splitArg_key_value_witness :
  splitArg "h=70" "" "" = Returns ("h"%string, "70"%string).
Proof.
  apply (splitArg_key_value "h" "0" "" "" "7");
    [reflexivity | discriminate | reflexivity | reflexivity | reflexivity
    | reflexivity].
Defined.

Lemma splitArg_quoted_value_witness :
  splitArg ("outfile='a=b.out" ++ String "034" "") "" ""
  = Returns ("outfile"%string, "a=b.out"%string).
Proof.
  apply (splitArg_quoted_value "outfile" "a=b.out" "" "" "'" "034");
    [reflexivity | discriminate | reflexivity | reflexivity | reflexivity].
Defined.

Lemma splitArg_lone_quote_witness : splitArg "batch='" "" "" = Undefined.
Proof.
  apply (splitArg_lone_quote "batch" "" "" "'");
    [reflexivity | discriminate | reflexivity | reflexivity].
Defined.

Lemma splitArg_without_value_witness :
  splitArg "z=" "" "" = OutOfRange /\ splitArg "" "" "" = OutOfRange.
Proof.
  split.
  - apply (splitArg_without_value "z" "" "" 1);
      [reflexivity | reflexivity | right; lia].
  - apply (splitArg_without_value "" "" "" 0);
      [reflexivity | reflexivity | left; reflexivity].
Defined.

Lemma splitArg_negated_flag_witness :
  splitArg "-north" "" "" = Returns ("rth"%string, "no"%string).
Proof.
  apply (splitArg_negated_flag "rth" "" "" 0); reflexivity.
Defined.

Lemma splitArg_flag_witness :
  splitArg "--quiet" "" "" = Returns ("quiet"%string, "yes"%string).
Proof.
  apply (splitArg_flag "quiet" "" "" 1); reflexivity.
Defined.

Lemma splitArg_bare_word_witness :
  splitArg "quiet" "" "yes" = Returns ("quiet"%string, "yes"%string).
Proof.
  apply (splitArg_bare_word "quiet" "" "yes");
    [reflexivity | discriminate | reflexivity | reflexivity].
Defined.

(** [cosmic h=70 -noprompt quiet] *)
Lemma processArgs_sample :
  processArgs ["h=70"; "-noprompt"; "quiet"]%string main_flags
  = Returns (mkFlags (<["prompt"%string := false]> (bflags main_flags))
               (sflags main_flags)
               (<["h"%string := atof "70"]> (fflags main_flags)),
             [IncompleteArgument "quiet"; EndOfLine]).
Proof. vm_compute; reflexivity. Qed.

Lemma processArgs_keeps_keys_witness :
  keeps_keys main_flags
    (mkFlags (<["prompt"%string := false]> (bflags main_flags))
       (sflags main_flags)
       (<["h"%string := atof "70"]> (fflags main_flags))).
Proof.
  exact (processArgs_keeps_keys _ _ _ _ processArgs_sample).
Defined.

Lemma processArgs_numbers_checked_witness :
  numbers_checked main_flags
    (mkFlags (<["prompt"%string := false]> (bflags main_flags))
       (sflags main_flags)
       (<["h"%string := atof "70"]> (fflags main_flags))).
Proof.
  exact (processArgs_numbers_checked _ _ _ _ processArgs_sample).
Defined.

Lemma processArgs_numeric_flag_witness :
  processArgs ["z=-"%string] main_flags
  = Returns (mkFlags (bflags main_flags) (sflags main_flags)
               (<["z"%string := atof "-"]> (fflags main_flags)), []).
Proof.
  apply (processArgs_numeric_flag "z" "-" main_flags);
    [reflexivity | discriminate | reflexivity | discriminate | discriminate
    | reflexivity | reflexivity | eexists; reflexivity].
Defined.

Lemma processArgs_switch_witness :
  processArgs ["-html"%string] main_flags
  = Returns (mkFlags (<["html"%string := true]> (bflags main_flags))
               (sflags main_flags) (fflags main_flags), []).
Proof.
  refine (proj1 (processArgs_switch "html" 0 main_flags _ _ _ _ _));
    [reflexivity | reflexivity | reflexivity | reflexivity
    | eexists; reflexivity].
Defined.

Lemma processArgs_stops_at_missing_value_witness :
  returns (processArgs ["h=70"; "z="; "-quiet"]%string main_flags) = false.
Proof.
  apply (processArgs_stops_at_missing_value "z" 1 ["h=70"%string] ["-quiet"%string]);
    [reflexivity | reflexivity | right; lia].
Defined.

End CommandLineExamples.

(** * Copies of an object *)

Section FaithfulCopies.

Context {libm : Libm}.

Lemma setRedshift_ignores_rhoCrit (s : Cosmo) (x z : float) :
  setRedshift (set_rhoCrit x s) z = setRedshift s z.
Proof.
  unfold setRedshift.
  destruct (set_z_members z (set_rhoCrit x s))
    as (E1 & E2 & E3 & E4 & E5 & E6 & E7 & E8).
  destruct (set_z_members z s) as (F1 & F2 & F3 & F4 & F5 & F6 & F7 & F8).
  apply setDistances_reads; try congruence; destruct s; reflexivity.
Qed.

Lemma setRedshift_is_recomputed (s : Cosmo) (z : float) :
  set_rhoCrit
    (critical_density (H0_ (setRedshift s z)) (OmegaM_ (setRedshift s z))
       (OmegaL_ (setRedshift s z)) (z_ (setRedshift s z)))
    (setRedshift s z)
  = setRedshift s z.
Proof.
  destruct (setRedshift_frame s z) as (H1 & H2 & H3 & _ & _ & _ & _ & H8).
  rewrite H1, H2, H3, H8, <- (setRedshift_rhoCrit s z); apply set_rhoCrit_same.
Qed.

Lemma clone_of_reachable (s : Cosmo) :
  reachable s ->
  forall this : Cosmo,
    clone this s
    = set_rhoCrit (critical_density (H0_ s) (OmegaM_ s) (OmegaL_ s) (z_ s)) s.
Proof.
  revert s.
  refine (reachable_induction
            (fun s => forall this : Cosmo,
               clone this s
               = set_rhoCrit (critical_density (H0_ s) (OmegaM_ s) (OmegaL_ s)
                                (z_ s)) s) _ _).
  - intros raw h m l this; rewrite clone_unfold.
    destruct (init_params raw h m l) as (H1 & H2 & H3).
    destruct (init_zeroes raw h m l) as (Z1 & Z2 & Z3 & Z4 & Z5 & Z6 & Z7 & Z8 & _).
    assert (Hinit : init this (H0_ (init raw h m l)) (OmegaM_ (init raw h m l))
                      (OmegaL_ (init raw h m l)) = init raw h m l)
      by (rewrite H1, H2, H3; apply init_raw).
    rewrite Hinit; apply setRedshift_of_unset; assumption.
  - intros s z IH this; rewrite clone_unfold.
    rewrite setRedshift_is_recomputed.
    destruct (setRedshift_frame s z) as (H1 & H2 & H3 & _ & _ & _ & _ & H8).
    rewrite H1, H2, H3, H8.
    rewrite <- (setRedshift_twice (init this (H0_ s) (OmegaM_ s) (OmegaL_ s))
                  (z_ s) z).
    rewrite <- clone_unfold, (IH this).
    apply setRedshift_ignores_rhoCrit.
Qed.

(** X28: a copy equals its source.  For a source in a state the public
    interface can produce, the copy constructor and the assignment give an
    object equal to the source in every member, except that [rhoCrit_] of
    the copy is computed where the source still has the [0] a constructor
    left; once [setRedshift] has been called on the source, the copy is
    the source, and the assignment changes the store at the target
    only. *)
Theorem copy_equals_source (mem : store) (raw o s : Cosmo) (this a b : addr)
    (z : float) :
  reachable s ->
  Cosmo_copy raw s
  = set_rhoCrit (critical_density (H0_ s) (OmegaM_ s) (OmegaL_ s) (z_ s)) s
  /\ Cosmo_copy raw (setRedshift s z) = setRedshift s z
  /\ (mem !! a = Some (setRedshift s z) -> mem !! this = Some o ->
      operator_assign mem this a = <[this := setRedshift s z]> mem)
  /\ (mem !! a = Some (setRedshift s z) ->
      copy_construct mem raw b a = <[b := setRedshift s z]> mem).
Proof.
  intros Hs.
  assert (Hcopy : forall this', clone this' (setRedshift s z) = setRedshift s z).
  { intros this'.
    rewrite (clone_of_reachable (setRedshift s z) (reach_setRedshift s z Hs)).
    apply setRedshift_is_recomputed. }
  split; [exact (clone_of_reachable s Hs raw) |].
  split; [exact (Hcopy raw) |].
  split.
  - intros Ha Hthis; unfold operator_assign.
    destruct (decide (this = a)) as [-> | Hne].
    + rewrite Ha in Hthis; symmetry; apply insert_id, Ha.
    + rewrite Hthis, Ha, (Hcopy o); reflexivity.
  - intros Ha; unfold copy_construct, Cosmo_copy; rewrite Ha, (Hcopy raw).
    reflexivity.
Qed.

End FaithfulCopies.

Section FaithfulCopiesExamples.

#[local] Existing Instance libm_uncalled.

Lemma copy_equals_source_witness :
  reachable sample_state /\
  Cosmo_copy raw0 (setRedshift sample_state 2) = setRedshift sample_state 2.
Proof.
  split; [exact sample_state_reachable |].
  exact (proj1 (proj2 (copy_equals_source ∅ raw0 raw0 sample_state 0%nat 0%nat
                         0%nat 2 sample_state_reachable))).
Defined.

End FaithfulCopiesExamples.
